(** * SimpleLogger: a shallow embedding of [Logger.cpp]

    The development follows the source file top to bottom: the [LogLevel]
    enumeration, the private helpers [getCurrentTime] and [levelToString],
    the constructor, the destructor, [log] and its five wrappers, then the
    demo driver ([SingleThreadLogging], [threadFunction], [main]).

    Sequential code is written in a small state-and-blocking monad over the
    pair (logger object, outside world).  Concurrent code is an interleaving
    step relation whose atomic steps are the statements of [log]. *)

From Stdlib Require Import ZArith Lia Ascii String List Bool.
From stdpp Require Import base option list gmap strings.

Local Open Scope Z_scope.

(** ** The enumeration *)

(** [enum class LogLevel { DEBUG, INFO, WARNING, ERROR, CRITICAL }] *)
Inductive LogLevel : Type :=
  | DEBUG
  | INFO
  | WARNING
  | ERROR
  | CRITICAL.

#[global] Instance LogLevel_eq_dec : EqDecision LogLevel.
Proof. solve_decision. Defined.

(** The value of an enumerator in the underlying integer type: the
    enumerators carry no initialiser, so they count from zero. *)
Definition rank (l : LogLevel) : Z :=
  match l with
  | DEBUG => 0
  | INFO => 1
  | WARNING => 2
  | ERROR => 3
  | CRITICAL => 4
  end.

(** The built-in [<] of a scoped enumeration compares underlying values. *)
Definition level_lt (a b : LogLevel) : bool := rank a <? rank b.

(** ** Decimal text *)

Definition digit (n : Z) : ascii := ascii_of_nat (48 + Z.to_nat (n mod 10)).

Fixpoint dec_digits (fuel : nat) (n : Z) (acc : string) : string :=
  match fuel with
  | O => acc
  | S fuel' =>
      let acc' := String (digit n) acc in
      if n / 10 =? 0 then acc' else dec_digits fuel' (n / 10) acc'
  end.

(** [std::to_string(int)]: an [int] has at most ten decimal digits. *)
Definition to_string (n : Z) : string :=
  if n <? 0 then "-" +:+ dec_digits 10 (- n) "" else dec_digits 10 n "".

(** A numeric conversion of [put_time] padded with zeros to two places
    ([%m], [%d], [%H], [%M], [%S]). *)
Definition fmt2 (n : Z) : string :=
  if (0 <=? n) && (n <? 10) then "0" +:+ to_string n else to_string n.

(** ** Broken-down time *)

(** The fields of [struct tm] that the format string reads. *)
Record tm : Type := mk_tm {
  tm_sec : Z;
  tm_min : Z;
  tm_hour : Z;
  tm_mday : Z;
  tm_mon : Z;    (* months since January *)
  tm_year : Z    (* years since 1900 *)
}.

(** What [std::localtime] hands back for an instant whose year has four
    digits ([tm_sec] may be 60 on a leap second). *)
Definition tm_ok (t : tm) : Prop :=
  0 <= tm_sec t <= 60 /\ 0 <= tm_min t <= 59 /\ 0 <= tm_hour t <= 23 /\
  1 <= tm_mday t <= 31 /\ 0 <= tm_mon t <= 11 /\
  1000 <= tm_year t + 1900 <= 9999.

(** [std::put_time(&t, "%Y-%m-%d %X")] on a stream carrying the classic
    locale (the program never installs another one), where [%X] is
    [%H:%M:%S]. *)
Definition put_time (t : tm) : string :=
  to_string (tm_year t + 1900) +:+ "-" +:+ fmt2 (tm_mon t + 1) +:+ "-" +:+
  fmt2 (tm_mday t) +:+ " " +:+
  fmt2 (tm_hour t) +:+ ":" +:+ fmt2 (tm_min t) +:+ ":" +:+ fmt2 (tm_sec t).

(** ** The outside world and the logger object *)

(** What the program does to its environment, in program order. *)
Inductive Event : Type :=
  | EvOpen (path : string) (ok : bool)
  | EvClose (path : string)
  | EvLock
  | EvUnlock
  | EvClock
  | EvCout (s : string)
  | EvCerr (s : string)
  | EvFile (path : string) (s : string).

(** [cout] and [cerr] hold every byte sent to the two standard streams,
    [files] the content of each regular file, [openable] tells whether a
    path can be opened for appending, [time_src] lists the successive
    answers of the system clock (already broken down by [localtime], time
    zone included) and [reads] counts how many of them were consumed.
    [environ] is the process environment as the program itself could read
    it. *)
Record World : Type := mk_World {
  cout : string;
  cerr : string;
  files : gmap string string;
  openable : string -> bool;
  time_src : nat -> tm;
  reads : nat;
  environ : gmap string string;
  trace : list Event
}.

(** The data members of [class Logger].  An [ofstream] is either closed
    ([None]) or associated with the file it was opened on. *)
Record Logger : Type := mk_Logger {
  logfile : option string;
  minimumLevel : LogLevel;
  logMutex : bool
}.

Definition St : Type := Logger * World.

Definition emit (e : Event) (w : World) : World :=
  mk_World (cout w) (cerr w) (files w) (openable w) (time_src w) (reads w)
           (environ w) (trace w ++ [e]).

(** *** Primitive effects *)

(** Appending to a file: the stream was opened with [std::ios::app], so
    every write lands at the current end of the file. *)
Definition file_append (path s : string) (fs : gmap string string)
  : gmap string string :=
  <[path := default "" (fs !! path) +:+ s]> fs.

Definition cout_write (s : string) (st : St) : St :=
  let w := emit (EvCout s) st.2 in
  (st.1, mk_World (cout w +:+ s) (cerr w) (files w) (openable w) (time_src w)
                  (reads w) (environ w) (trace w)).

Definition cerr_write (s : string) (st : St) : St :=
  let w := emit (EvCerr s) st.2 in
  (st.1, mk_World (cout w) (cerr w +:+ s) (files w) (openable w) (time_src w)
                  (reads w) (environ w) (trace w)).

(** [logfile << s]; nothing is written through a closed stream. *)
Definition logfile_write (s : string) (st : St) : St :=
  match logfile st.1 with
  | Some path =>
      let w := emit (EvFile path s) st.2 in
      (st.1, mk_World (cout w) (cerr w) (file_append path s (files w))
                      (openable w) (time_src w) (reads w) (environ w) (trace w))
  | None => st
  end.

(** [system_clock::now()], [to_time_t], [localtime]. *)
Definition clock_read (st : St) : tm * St :=
  let w := st.2 in
  let t := time_src w (reads w) in
  (t, (st.1, mk_World (cout w) (cerr w) (files w) (openable w) (time_src w)
                      (S (reads w)) (environ w) (trace w ++ [EvClock]))).

(** Taking [logMutex]; a caller that finds it held has to wait. *)
Definition mutex_lock (st : St) : option St :=
  if logMutex st.1 then None
  else Some (mk_Logger (logfile st.1) (minimumLevel st.1) true, emit EvLock st.2).

Definition mutex_unlock (st : St) : St :=
  (mk_Logger (logfile st.1) (minimumLevel st.1) false, emit EvUnlock st.2).

(** [logfile.open(filename, std::ios::out | std::ios::app)]: the file is
    created empty when it does not exist and is left as it is otherwise. *)
Definition logfile_open (filename : string) (st : St) : St :=
  let w := st.2 in
  if openable w filename then
    (mk_Logger (Some filename) (minimumLevel st.1) (logMutex st.1),
     mk_World (cout w) (cerr w) (file_append filename "" (files w)) (openable w)
              (time_src w) (reads w) (environ w) (trace w ++ [EvOpen filename true]))
  else
    (mk_Logger None (minimumLevel st.1) (logMutex st.1), emit (EvOpen filename false) w).

Definition logfile_close (st : St) : St :=
  match logfile st.1 with
  | Some path =>
      (mk_Logger None (minimumLevel st.1) (logMutex st.1), emit (EvClose path) st.2)
  | None => st
  end.

(** *** The monad of member functions *)

(** A member function takes the object and the world and either comes back
    with a result and their new values, or never comes back ([None]): the
    only way to block is to wait for a mutex nobody will release. *)
Definition M (A : Type) : Type := St -> option (A * St).

Definition ret {A} (a : A) : M A := fun st => Some (a, st).

Definition bind {A B} (m : M A) (k : A -> M B) : M B :=
  fun st => match m st with
            | Some (a, st') => k a st'
            | None => None
            end.

Definition lift (f : St -> St) : M unit := fun st => Some (tt, f st).

Declare Scope logger_scope.
Delimit Scope logger_scope with logger.
Notation "x <- m ;; k" := (bind m (fun x => k))
  (at level 100, m at next level, right associativity) : logger_scope.
Notation "m ;; k" := (bind m (fun _ => k))
  (at level 100, right associativity) : logger_scope.
Local Open Scope logger_scope.

Definition endl : string := String (ascii_of_nat 10) EmptyString.

Definition is_open : M bool := fun st => Some (bool_decide (is_Some (logfile st.1)), st).
Definition get_minimumLevel : M LogLevel := fun st => Some (minimumLevel st.1, st).
Definition lock_guard : M unit :=
  fun st => match mutex_lock st with Some st' => Some (tt, st') | None => None end.
Definition unlock_guard : M unit := lift mutex_unlock.

(** ** Private helpers *)

(** [std::string getCurrentTime()] *)
Definition getCurrentTime : M string :=
  fun st => let '(t, st') := clock_read st in Some (put_time t, st').

(** The [switch] of [levelToString], on the underlying value. *)
Definition levelToString_switch (v : Z) : string :=
  match v with
  | 0 => "DEBUG"
  | 1 => "INFO"
  | 2 => "WARNING"
  | 3 => "ERROR"
  | 4 => "CRITICAL"
  | _ => "UNKNOWN"
  end.

(** [std::string levelToString(LogLevel level)] *)
Definition levelToString (level : LogLevel) : string :=
  levelToString_switch (rank level).

(** ** Public interface *)

(** [Logger(const std::string& filename = "app.log",
            LogLevel minLevel = LogLevel::INFO)] *)
Definition Logger_new (filename : option string) (minLevel : option LogLevel)
  (w : World) : St :=
  let filename := default "app.log" filename in
  let this := mk_Logger None (default INFO minLevel) false in
  let st := logfile_open filename (this, w) in
  if bool_decide (is_Some (logfile st.1)) then st
  else cerr_write endl
         (cerr_write filename (cerr_write "Failed to open the log file : " st)).

(** [~Logger()] *)
Definition Logger_delete : M unit :=
  open <- is_open ;;
  if open then lift logfile_close else ret tt.

Definition build_entry (now : string) (level : LogLevel) (message : string) : string :=
  "[" +:+ now +:+ "]" +:+ "[" +:+ levelToString level +:+ "]" +:+ message.

(** [void log(LogLevel level, const std::string& message)] *)
Definition log (level : LogLevel) (message : string) : M unit :=
  minLevel <- get_minimumLevel ;;
  if level_lt level minLevel then ret tt
  else
    lock_guard ;;
    now <- getCurrentTime ;;
    let logEntry := build_entry now level message in
    lift (cout_write logEntry) ;;
    lift (cout_write endl) ;;
    open <- is_open ;;
    (if open
     then lift (logfile_write logEntry) ;; lift (logfile_write endl)
     else ret tt) ;;
    unlock_guard.



Definition debug (message : string) : M unit := log DEBUG message.
Definition info (message : string) : M unit := log INFO message.
Definition warning (message : string) : M unit := log WARNING message.
Definition error (message : string) : M unit := log ERROR message.
Definition critical (message : string) : M unit := log CRITICAL message.

(** A sequence of calls issued one after the other by a single caller. *)
Fixpoint log_all (calls : list (LogLevel * string)) : M unit :=
  match calls with
  | [] => ret tt
  | (level, message) :: rest => log level message ;; log_all rest
  end.

(** ** Callers running side by side *)

(** What a worker does next: a call of [log] (the wrappers forward to it)
    or [std::this_thread::sleep_for]. *)
Inductive Action : Type :=
  | Call (level : LogLevel) (message : string)
  | SleepFor (ms : Z).

(** Where a caller stands inside [log], with the locals that are live
    there.  [Idle] is outside [log]; from [AtEntry] to [AtRelease] the
    caller is inside the braces that hold the [lock_guard]. *)
Inductive Pc : Type :=
  | Idle
  | AtGuard (level : LogLevel) (message : string)
  | AtEntry (level : LogLevel) (message : string)
  | AtCout (level : LogLevel) (message logEntry : string)
  | AtCoutEndl (level : LogLevel) (message logEntry : string)
  | AtIsOpen (level : LogLevel) (message logEntry : string)
  | AtFile (level : LogLevel) (message logEntry : string)
  | AtFileEndl (level : LogLevel) (message logEntry : string)
  | AtRelease (level : LogLevel) (message : string).

Record Thread : Type := mk_Thread {
  pc : Pc;
  prog : list Action
}.

(** One statement of one caller against the shared logger.  [None]: the
    caller cannot move (it has returned for good, or it waits for the
    mutex). *)
Definition thread_step (st : St) (th : Thread) : option (St * Thread) :=
  match pc th with
  | Idle =>
      match prog th with
      | [] => None
      | Call level message :: rest =>
          if level_lt level (minimumLevel st.1)
          then Some (st, mk_Thread Idle rest)
          else Some (st, mk_Thread (AtGuard level message) rest)
      | SleepFor _ :: rest => Some (st, mk_Thread Idle rest)
      end
  | AtGuard level message =>
      match mutex_lock st with
      | Some st' => Some (st', mk_Thread (AtEntry level message) (prog th))
      | None => None
      end
  | AtEntry level message =>
      let '(t, st') := clock_read st in
      Some (st', mk_Thread (AtCout level message (build_entry (put_time t) level message))
                           (prog th))
  | AtCout level message logEntry =>
      Some (cout_write logEntry st, mk_Thread (AtCoutEndl level message logEntry) (prog th))
  | AtCoutEndl level message logEntry =>
      Some (cout_write endl st, mk_Thread (AtIsOpen level message logEntry) (prog th))
  | AtIsOpen level message logEntry =>
      if bool_decide (is_Some (logfile st.1))
      then Some (st, mk_Thread (AtFile level message logEntry) (prog th))
      else Some (st, mk_Thread (AtRelease level message) (prog th))
  | AtFile level message logEntry =>
      Some (logfile_write logEntry st, mk_Thread (AtFileEndl level message logEntry) (prog th))
  | AtFileEndl level message logEntry =>
      Some (logfile_write endl st, mk_Thread (AtRelease level message) (prog th))
  | AtRelease level message =>
      Some (mutex_unlock st, mk_Thread Idle (prog th))
  end.

(** The logger with everything it touches, shared by all callers. *)
Record Sys : Type := mk_Sys {
  shared : St;
  threads : list Thread
}.

(** Preemptive scheduling: any caller that can move may move next. *)
Inductive sys_step : Sys -> Sys -> Prop :=
  | sys_step_at (st st' : St) (th th' : Thread) (before after : list Thread) :
      thread_step st th = Some (st', th') ->
      sys_step (mk_Sys st (before ++ th :: after)) (mk_Sys st' (before ++ th' :: after)).

Inductive sys_steps : Sys -> Sys -> Prop :=
  | sys_steps_refl (s : Sys) : sys_steps s s
  | sys_steps_step (s1 s2 s3 : Sys) :
      sys_steps s1 s2 -> sys_step s2 s3 -> sys_steps s1 s3.

(** The same, driven by an explicit schedule: at each tick the scheduler
    names a caller; a caller that cannot move loses its turn. *)
Definition sched_step (i : nat) (s : Sys) : Sys :=
  match threads s !! i with
  | Some th =>
      match thread_step (shared s) th with
      | Some (st', th') => mk_Sys st' (<[i := th']> (threads s))
      | None => s
      end
  | None => s
  end.

Definition run_sched (sched : list nat) (s : Sys) : Sys :=
  fold_left (fun s i => sched_step i s) sched s.

Definition finished (th : Thread) : bool :=
  match pc th, prog th with
  | Idle, [] => true
  | _, _ => false
  end.

Definition all_done (s : Sys) : bool := forallb finished (threads s).

Definition in_cs (p : Pc) : bool :=
  match p with
  | Idle | AtGuard _ _ => false
  | _ => true
  end.

(** The calls of a program that pass the filter. *)
Fixpoint accepted (minLevel : LogLevel) (acts : list Action) : list (LogLevel * string) :=
  match acts with
  | [] => []
  | Call level message :: rest =>
      if level_lt level minLevel then accepted minLevel rest
      else (level, message) :: accepted minLevel rest
  | SleepFor _ :: rest => accepted minLevel rest
  end.

Definition spawn (progs : list (list Action)) : list Thread :=
  map (mk_Thread Idle) progs.

(** ** The driver *)

(** [void SingleThreadLogging(Logger& logger, const std::string& logFilename)] *)
Definition SingleThreadLogging (logFilename : string) : M unit :=
  info "----- IN SINGLE THREAD LOGIC ------" ;;
  debug "This is debug message" ;;
  info ("Application started and logfile name is : " +:+ logFilename) ;;
  warning "Low memory condition detected" ;;
  error "Failed some where" ;;
  critical "Crash detected" ;;
  info "----- END SINGLE THREAD LOGIC ------".

(** One turn of the loop of [threadFunction]. *)
Definition threadFunction_body (threadid i : Z) : list Action :=
  let msg := "Thread : " +:+ to_string threadid +:+ " - Message " +:+ to_string i in
  [Call INFO msg;
   Call DEBUG ("In threading debug - The thread is :" +:+ to_string threadid);
   SleepFor 100].

(** [void threadFunction(Logger& logger, int threadid)]: [i] runs from 0 to 4. *)
Definition threadFunction (threadid : Z) : list Action :=
  flat_map (threadFunction_body threadid) [0; 1; 2; 3; 4].

Definition numThreads : Z := 5.

(** The first loop of [main] starts [threadFunction] with ids 1 to
    [numThreads]. *)
Definition main_workers : list (list Action) :=
  map (fun i => threadFunction (i + 1)) (seqZ 0 numThreads).

(** [logFilename] as [main] computes it; [argv] includes the program name,
    [argc] is its length. *)
Definition main_logFilename (argv : list string) : string :=
  let argc := Z.of_nat (length argv) in
  if 1 <? argc then default "" (argv !! 1%nat) else "myLogs.txt".

(** [int main(int argc, char* argv[])].  The body runs in three stretches:
    alone up to the first loop, then side by side with the workers, then,
    once every [join] has returned, alone again to the [return]; the
    destructor of [logger] runs on the way out.  A worker started early
    can move before the later ones exist; that is the same as a schedule
    that leaves the later ones waiting, so all are started at once here. *)
Inductive main_run (argv : list string) (w : World) : World -> Z -> Prop :=
  | main_run_intro (st1 st3 : St) (joined : Sys) :
      (SingleThreadLogging (main_logFilename argv) ;;
       info "----- IN MULTI THREAD LOGIC -----")
        (Logger_new (Some (main_logFilename argv)) (Some DEBUG) w) = Some (tt, st1) ->
      sys_steps (mk_Sys st1 (spawn main_workers)) joined ->
      all_done joined = true ->
      (info "------ ALL THREADS ARE COMPLETED ------" ;; Logger_delete) (shared joined)
        = Some (tt, st3) ->
      main_run argv w st3.2 0.

(** ** Vocabulary of the statements *)

(** The rest of the braces of [log], from each point to the closing one. *)
Definition after_release (st : St) : St := mutex_unlock st.

Definition after_file_endl (st : St) : St := after_release (logfile_write endl st).

Definition after_file (logEntry : string) (st : St) : St :=
  after_file_endl (logfile_write logEntry st).

Definition after_is_open (logEntry : string) (st : St) : St :=
  if bool_decide (is_Some (logfile st.1)) then after_file logEntry st
  else after_release st.

Definition after_cout_endl (logEntry : string) (st : St) : St :=
  after_is_open logEntry (cout_write endl st).

Definition after_cout (logEntry : string) (st : St) : St :=
  after_cout_endl logEntry (cout_write logEntry st).

Definition after_entry (level : LogLevel) (message : string) (st : St) : St :=
  let '(t, st') := clock_read st in
  after_cout (build_entry (put_time t) level message) st'.

Definition cs_rest (p : Pc) (st : St) : St :=
  match p with
  | Idle | AtGuard _ _ => st
  | AtEntry level message => after_entry level message st
  | AtCout _ _ logEntry => after_cout logEntry st
  | AtCoutEndl _ _ logEntry => after_cout_endl logEntry st
  | AtIsOpen _ _ logEntry => after_is_open logEntry st
  | AtFile _ _ logEntry => after_file logEntry st
  | AtFileEndl _ _ _ => after_file_endl st
  | AtRelease _ _ => after_release st
  end.

(** The upper-case name of a severity. *)
Definition level_name (l : LogLevel) : string :=
  match l with
  | DEBUG => "DEBUG"
  | INFO => "INFO"
  | WARNING => "WARNING"
  | ERROR => "ERROR"
  | CRITICAL => "CRITICAL"
  end.

(** The world after an accepted call, written out field by field. *)
Definition log_world (level : LogLevel) (message : string) (lg : Logger) (w : World)
  : World :=
  let t := time_src w (reads w) in
  let e := build_entry (put_time t) level message in
  mk_World (cout w +:+ e +:+ endl) (cerr w)
    (match logfile lg with
     | Some p => file_append p (e +:+ endl) (files w)
     | None => files w
     end)
    (openable w) (time_src w) (S (reads w)) (environ w)
    (trace w ++ [EvLock; EvClock; EvCout e; EvCout endl] ++
       match logfile lg with
       | Some p => [EvFile p e; EvFile p endl]
       | None => []
       end ++ [EvUnlock]).

(** The entries a sequence of calls gives rise to when the clock is at its
    [k]-th answer: one per call that passes the filter, each stamped with
    the next answer of the clock. *)
Fixpoint entries_of (minLevel : LogLevel) (src : nat -> tm) (k : nat)
  (calls : list (LogLevel * string)) : list string :=
  match calls with
  | [] => []
  | (level, message) :: rest =>
      if level_lt level minLevel then entries_of minLevel src k rest
      else build_entry (put_time (src k)) level message
             :: entries_of minLevel src (S k) rest
  end.

(** How many line terminators a text contains. *)
Fixpoint newlines (s : string) : nat :=
  match s with
  | EmptyString => 0
  | String c rest => ((if (nat_of_ascii c =? 10)%nat then 1 else 0) + newlines rest)%nat
  end.

(** Each entry followed by the line terminator, one after the other. *)
Definition lines (entries : list string) : string :=
  fold_right (fun e acc => e +:+ endl +:+ acc) "" entries.

(** What a path holds (nothing, when there is no such file). *)
Definition file_content (path : string) (fs : gmap string string) : string :=
  default "" (fs !! path).

(** The two operating states of a logger. *)
Inductive Mode : Type :=
  | FileOpen
  | FileUnavailable.

Definition mode (lg : Logger) : Mode :=
  match logfile lg with
  | Some _ => FileOpen
  | None => FileUnavailable
  end.


(** The events of one accepted call, and of a run of them. *)
Definition entry_events (lf : option string) (e : string) : list Event :=
  [EvLock; EvClock; EvCout e; EvCout endl] ++
  match lf with
  | Some p => [EvFile p e; EvFile p endl]
  | None => []
  end ++ [EvUnlock].

Definition entries_events (lf : option string) (es : list string) : list Event :=
  flat_map (entry_events lf) es.

(** [w'] is [w] after the entries [es] went out through logger [lg], and
    nothing else happened. *)
Record extends (lg : Logger) (w : World) (es : list string) (w' : World) : Prop :=
  mk_extends {
  ext_cout : cout w' = cout w +:+ lines es;
  ext_cerr : cerr w' = cerr w;
  ext_reads : reads w' = (reads w + length es)%nat;
  ext_time_src : time_src w' = time_src w;
  ext_openable : openable w' = openable w;
  ext_environ : environ w' = environ w;
  ext_trace : trace w' = trace w ++ entries_events (logfile lg) es;
  ext_file : forall p, logfile lg = Some p ->
             file_content p (files w') = file_content p (files w) +:+ lines es;
  ext_file_some : forall p, logfile lg = Some p ->
             is_Some (files w !! p) -> is_Some (files w' !! p);
  ext_files_other : forall q, logfile lg <> Some q -> files w' !! q = files w !! q
}.


(** ** Sample inputs *)

(** A clock that starts at 2024-02-03 09:05:00 and gains a second with
    every reading. *)
Definition sample_clock (n : nat) : tm :=
  mk_tm (Z.of_nat n mod 60) 5 9 3 1 124.

(** A world with silent streams and an empty disk on which one directory
    is missing. *)
Definition sample_world : World :=
  mk_World "" "" ∅ (fun p => negb (String.eqb p "/no/such/dir/app.log"))
           sample_clock 0 ∅ [].


(** ** The shape [YYYY-MM-DD HH:MM:SS] *)

Definition two (n : Z) : string :=
  String (digit (n / 10)) (String (digit n) "").

Definition four (n : Z) : string :=
  String (digit (n / 1000)) (String (digit (n / 100)) (two n)).

(** A broken-down time written as year, month and day of the month, then
    hour, minute and second, every field at its full width. *)
Definition timestamp_text (t : tm) : string :=
  four (tm_year t + 1900) +:+ "-" +:+ two (tm_mon t + 1) +:+ "-" +:+
  two (tm_mday t) +:+ " " +:+
  two (tm_hour t) +:+ ":" +:+ two (tm_min t) +:+ ":" +:+ two (tm_sec t).

Definition is_digit (c : ascii) : bool :=
  (48 <=? nat_of_ascii c)%nat && (nat_of_ascii c <=? 57)%nat.

Definition digit_val (c : ascii) : Z := Z.of_nat (nat_of_ascii c) - 48.

Definition read2 (a b : ascii) : Z := 10 * digit_val a + digit_val b.

Definition is_char (c : ascii) (n : nat) : bool := (nat_of_ascii c =? n)%nat.

(** Reading a timestamp back: nineteen characters, digits and separators
    each at their place. *)
Definition parse_timestamp (s : string) : option tm :=
  match list_ascii_of_string s with
  | [y1; y2; y3; y4; p1; m1; m2; p2; d1; d2; p3; h1; h2; p4; i1; i2; p5; s1; s2] =>
      if forallb is_digit [y1; y2; y3; y4; m1; m2; d1; d2; h1; h2; i1; i2; s1; s2]
         && is_char p1 45 && is_char p2 45 && is_char p3 32
         && is_char p4 58 && is_char p5 58
      then Some (mk_tm (read2 s1 s2) (read2 i1 i2) (read2 h1 h2) (read2 d1 d2)
                       (read2 m1 m2 - 1)
                       (100 * read2 y1 y2 + read2 y3 y4 - 1900))
      else None
  | _ => None
  end.


(** ** Vocabulary of the statements about callers side by side *)

(** The call a caller is in the middle of. *)
Definition call_of (p : Pc) : list (LogLevel * string) :=
  match p with
  | Idle => []
  | AtGuard level message
  | AtEntry level message
  | AtCout level message _
  | AtCoutEndl level message _
  | AtIsOpen level message _
  | AtFile level message _
  | AtFileEndl level message _
  | AtRelease level message => [(level, message)]
  end.

(** The calls a caller still owes an entry for. *)
Definition pending (minLevel : LogLevel) (th : Thread) : list (LogLevel * string) :=
  call_of (pc th) ++ accepted minLevel (prog th).

Definition passes (minLevel : LogLevel) (th : Thread) : Prop :=
  Forall (fun c => level_lt c.1 minLevel = false) (call_of (pc th)).

(** The callers that are inside the guarded block. *)
Definition holders (ths : list Thread) : list Thread :=
  List.filter (fun th => in_cs (pc th)) ths.

(** [virt] is the state the logger was in when the mutex was last free:
    the present state when nobody is inside the block; otherwise the state
    from which the one caller inside started its call, so that finishing
    its block from the present state is the whole call done from [virt]. *)
Definition holds (ths : list Thread) (st virt : St) : Prop :=
  match holders ths with
  | [] => logMutex st.1 = false /\ virt = st
  | [h] => logMutex st.1 = true /\
           exists level message,
             call_of (pc h) = [(level, message)] /\
             log level message virt = Some (tt, cs_rest (pc h) st)
  | _ => False
  end.

(** What holds of every state the callers can reach from [st0] when the
    calls they were given are [all]: some of these calls have been carried
    out, in some order, as if by a single caller; the others are pending. *)
Record Inv (st0 : St) (all : list (LogLevel * string)) (s : Sys) : Prop := mk_Inv {
  inv_logfile : logfile (shared s).1 = logfile st0.1;
  inv_min : minimumLevel (shared s).1 = minimumLevel st0.1;
  inv_passes : Forall (passes (minimumLevel st0.1)) (threads s);
  inv_serial : exists order virt,
      log_all order st0 = Some (tt, virt) /\
      Permutation (order ++ flat_map (pending (minimumLevel st0.1)) (threads s)) all /\
      holds (threads s) (shared s) virt
}.

(** Runs counted by their number of steps. *)
(** A run is never longer than the work there is to do. *)
Inductive sys_steps_n : nat -> Sys -> Sys -> Prop :=
  | sys_steps_n_O (s : Sys) : sys_steps_n 0 s s
  | sys_steps_n_S (n : nat) (s1 s2 s3 : Sys) :
      sys_steps_n n s1 s2 -> sys_step s2 s3 -> sys_steps_n (S n) s1 s3.

(** How many statements a caller still has to go through, at most. *)
Definition pc_weight (p : Pc) : nat :=
  match p with
  | Idle => 0
  | AtGuard _ _ => 8
  | AtEntry _ _ => 7
  | AtCout _ _ _ => 6
  | AtCoutEndl _ _ _ => 5
  | AtIsOpen _ _ _ => 4
  | AtFile _ _ _ => 3
  | AtFileEndl _ _ _ => 2
  | AtRelease _ _ => 1
  end.

Definition weight (th : Thread) : nat := (pc_weight (pc th) + 9 * length (prog th))%nat.

Definition measure (s : Sys) : nat := list_sum (map weight (threads s)).


(** Two workers with two calls each, and a schedule that lets them take
    turns (the one that finds the mutex taken loses its turn). *)
Definition sample_progs : list (list Action) :=
  [[Call INFO "a1"; Call DEBUG "a2"]; [Call ERROR "b1"; SleepFor 100; Call WARNING "b2"]].

Definition sample_logger : Logger := mk_Logger (Some "a.log") DEBUG false.

Definition sample_sched : list nat :=
  flat_map (fun _ => [0; 1]%nat) (seq 0 40).


(** ** Vocabulary of the statements about the driver *)

(** The same world with another process environment. *)
Definition with_env (e : gmap string string) (w : World) : World :=
  mk_World (cout w) (cerr w) (files w) (openable w) (time_src w) (reads w) e (trace w).

Definition St_env (e : gmap string string) (st : St) : St := (st.1, with_env e st.2).

Definition Sys_env (e : gmap string string) (s : Sys) : Sys :=
  mk_Sys (St_env e (shared s)) (threads s).

Definition result_env {A} (e : gmap string string) (r : option (A * St))
  : option (A * St) :=
  match r with
  | Some (a, st) => Some (a, St_env e st)
  | None => None
  end.

(** The calls [main] makes itself before it starts the workers. *)
Definition main_first_calls (logFilename : string) : list (LogLevel * string) :=
  [(INFO, "----- IN SINGLE THREAD LOGIC ------");
   (DEBUG, "This is debug message");
   (INFO, "Application started and logfile name is : " +:+ logFilename);
   (WARNING, "Low memory condition detected");
   (ERROR, "Failed some where");
   (CRITICAL, "Crash detected");
   (INFO, "----- END SINGLE THREAD LOGIC ------");
   (INFO, "----- IN MULTI THREAD LOGIC -----")].

(** What the constructor leaves in the trace. *)
Definition open_events (path : string) (ok : bool) : list Event :=
  if ok then [EvOpen path true]
  else [EvOpen path false; EvCerr "Failed to open the log file : ";
        EvCerr path; EvCerr endl].

(** What the destructor leaves in the trace. *)
Definition close_events (path : string) (ok : bool) : list Event :=
  if ok then [EvClose path] else [].


(** ** Vocabulary of further statements *)

(** A world whose disk already holds a log file. *)
Definition sample_world_old : World :=
  mk_World "" "" {[ "a.log" := "old line" +:+ endl ]}
           (fun p => negb (String.eqb p "/no/such/dir/app.log"))
           sample_clock 0 ∅ [].

(** How many of the calls of [SingleThreadLogging] pass each threshold. *)
Definition single_thread_entries (minLevel : LogLevel) : nat :=
  match minLevel with
  | DEBUG => 7
  | INFO => 6
  | WARNING => 3
  | ERROR => 2
  | CRITICAL => 1
  end.


(** [w'] is [w] with text added at the end of the console and of the log
    file, clock readings consumed, and nothing else changed. *)
Record grows (lf : option string) (w w' : World) : Prop := mk_grows {
  grows_cout : exists added, cout w' = cout w +:+ added;
  grows_cerr : cerr w' = cerr w;
  grows_file : forall p, lf = Some p ->
      exists added, file_content p (files w') = file_content p (files w) +:+ added;
  grows_others : forall q, lf <> Some q -> files w' !! q = files w !! q;
  grows_reads : (reads w <= reads w')%nat;
  grows_time_src : time_src w' = time_src w;
  grows_openable : openable w' = openable w;
  grows_environ : environ w' = environ w
}.


(** [Interleave ls l]: the list [l] is the lists [ls] shuffled together,
    each of them keeping its own order.  It is built from the front: at
    each turn one of the lists contributes its next element. *)
Inductive Interleave {A : Type} : list (list A) -> list A -> Prop :=
  | Interleave_start (n : nat) : Interleave (replicate n []) []
  | Interleave_next (before after : list (list A)) (done : list A) (x : A)
      (sofar : list A) :
      Interleave (before ++ done :: after) sofar ->
      Interleave (before ++ (done ++ [x]) :: after) (sofar ++ [x]).

(** The calls carried out so far, in the order they were carried out, are
    an interleaving of what each caller has got through, and what a caller
    has got through followed by what it still owes is what it was given. *)
Definition Fifo (st0 : St) (targets : list (list (LogLevel * string))) (s : Sys) : Prop :=
  exists (order : list (LogLevel * string)) (virt : St)
         (dones : list (list (LogLevel * string))),
    log_all order st0 = Some (tt, virt) /\
    holds (threads s) (shared s) virt /\
    Interleave dones order /\
    Forall3 (fun d th t => d ++ pending (minimumLevel st0.1) th = t)
            dones (threads s) targets.

(** All the calls of a program, filtered or not. *)
Fixpoint calls_of (acts : list Action) : list (LogLevel * string) :=
  match acts with
  | [] => []
  | Call level message :: rest => (level, message) :: calls_of rest
  | SleepFor _ :: rest => calls_of rest
  end.


(** Comparing pairs: the first components decide unless they are equal. *)
Definition lex (c1 c2 : comparison) : comparison :=
  match c1 with
  | Eq => c2
  | _ => c1
  end.

(** Which of two broken-down times comes first: years, then months, then
    days, hours, minutes, seconds. *)
Definition tm_compare (t1 t2 : tm) : comparison :=
  lex (tm_year t1 ?= tm_year t2)
  (lex (tm_mon t1 ?= tm_mon t2)
  (lex (tm_mday t1 ?= tm_mday t2)
  (lex (tm_hour t1 ?= tm_hour t2)
  (lex (tm_min t1 ?= tm_min t2) (tm_sec t1 ?= tm_sec t2))))).


(** The calls of [threadFunction] that pass each threshold, in the order
    in which the worker makes them: both calls of each of the five turns,
    the INFO call of each turn only, or none. *)
Definition worker_calls (minLevel : LogLevel) (threadid : Z) : list (LogLevel * string) :=
  match minLevel with
  | DEBUG =>
      flat_map
        (fun i => [(INFO, "Thread : " +:+ to_string threadid +:+ " - Message " +:+ to_string i);
                   (DEBUG, "In threading debug - The thread is :" +:+ to_string threadid)])
        [0; 1; 2; 3; 4]
  | INFO =>
      map (fun i => (INFO, "Thread : " +:+ to_string threadid +:+ " - Message " +:+ to_string i))
          [0; 1; 2; 3; 4]
  | _ => []
  end.

(** How many of the ten calls of [threadFunction] pass each threshold. *)
Definition worker_entries (minLevel : LogLevel) : nat :=
  match minLevel with
  | DEBUG => 10
  | INFO => 5
  | _ => 0
  end.


(** Reading decimal text back, the way [std::stoi] does on text that
    [std::to_string] produced: an optional minus sign, then digits. *)
Fixpoint read_digits (s : string) (acc : Z) : Z :=
  match s with
  | EmptyString => acc
  | String c rest => read_digits rest (10 * acc + digit_val c)
  end.

Definition of_string (s : string) : Z :=
  match s with
  | EmptyString => 0
  | String c rest => if is_char c 45 then - read_digits rest 0 else read_digits s 0
  end.

(** The values of an [int]. *)
Definition is_int (n : Z) : Prop := -2147483648 <= n <= 2147483647.

(** Whether a character occurs in a text. *)
Fixpoint has_char (n : nat) (s : string) : bool :=
  match s with
  | EmptyString => false
  | String c rest => is_char c n || has_char n rest
  end.

Fixpoint all_digits (s : string) : bool :=
  match s with
  | EmptyString => true
  | String c rest => is_digit c && all_digits rest
  end.


(** ** Reading a log back *)

(** The text before the first occurrence of a character, and the text
    after it. *)
Fixpoint take_until (n : nat) (s : string) : option (string * string) :=
  match s with
  | EmptyString => None
  | String c rest =>
      if is_char c n then Some (EmptyString, rest)
      else match take_until n rest with
           | Some (before, after) => Some (String c before, after)
           | None => None
           end
  end.

Definition level_of_tag (tag : string) : option LogLevel :=
  if String.eqb tag "DEBUG" then Some DEBUG
  else if String.eqb tag "INFO" then Some INFO
  else if String.eqb tag "WARNING" then Some WARNING
  else if String.eqb tag "ERROR" then Some ERROR
  else if String.eqb tag "CRITICAL" then Some CRITICAL
  else None.

(** Reading an entry: a bracketed timestamp, a bracketed severity, and
    whatever follows as the message. *)
Definition parse_entry (s : string) : option (tm * LogLevel * string) :=
  match s with
  | String c1 r1 =>
      if is_char c1 91 then
        match take_until 93 r1 with
        | Some (ts, String c2 r2) =>
            if is_char c2 91 then
              match parse_timestamp ts, take_until 93 r2 with
              | Some t, Some (tag, message) =>
                  match level_of_tag tag with
                  | Some level => Some (t, level, message)
                  | None => None
                  end
              | _, _ => None
              end
            else None
        | _ => None
        end
      else None
  | EmptyString => None
  end.

(** Cutting a text into its terminated lines; [cur] is the line being read.
    What follows the last terminator is dropped. *)
Fixpoint split_lines (s : string) (cur : string) : list string :=
  match s with
  | EmptyString => []
  | String c rest =>
      if is_char c 10 then cur :: split_lines rest EmptyString
      else split_lines rest (cur +:+ String c EmptyString)
  end.

(** * Properties *)

(** ** Text *)

Lemma app_cons_s (x : ascii) (a b : string) : String x a +:+ b = String x (a +:+ b).
Proof. reflexivity. Qed.

Lemma app_nil_l_s (a : string) : "" +:+ a = a.
Proof. reflexivity. Qed.

Lemma app_assoc_s (a b c : string) : (a +:+ b) +:+ c = a +:+ (b +:+ c).
Proof.
  induction a as [|x a IH]; [reflexivity |].
  rewrite !app_cons_s. now rewrite IH.
Qed.

Lemma app_nil_r_s (a : string) : a +:+ "" = a.
Proof.
  induction a as [|x a IH]; [reflexivity |].
  rewrite app_cons_s. now rewrite IH.
Qed.

Lemma app_length_s (a b : string) :
  String.length (a +:+ b) = (String.length a + String.length b)%nat.
Proof.
  induction a as [|x a IH]; [reflexivity |].
  rewrite app_cons_s. simpl. now rewrite IH.
Qed.

Lemma app_eq_self_inv (a b : string) : a +:+ b = a -> b = "".
Proof.
  intros H. apply (f_equal String.length) in H. rewrite app_length_s in H.
  destruct b; [reflexivity | simpl in H; lia].
Qed.

(** ** Decimal text and time on sample values *)

Example put_time_sample :
  put_time (mk_tm 7 5 9 3 1 124) = "2024-02-03 09:05:07".
Proof. reflexivity. Qed.

Example to_string_samples :
  to_string 0 = "0" /\ to_string 42 = "42" /\ to_string (-17) = "-17" /\
  to_string 2147483647 = "2147483647".
Proof. repeat split; reflexivity. Qed.

(** ** The order on severities *)

Lemma rank_inj (a b : LogLevel) : rank a = rank b -> a = b.
Proof. destruct a, b; simpl; intros H; try reflexivity; discriminate H. Qed.

Lemma level_lt_spec (a b : LogLevel) : level_lt a b = true <-> rank a < rank b.
Proof. unfold level_lt. apply Z.ltb_lt. Qed.

Lemma level_lt_false (a b : LogLevel) : level_lt a b = false <-> rank b <= rank a.
Proof. unfold level_lt. rewrite Z.ltb_ge. reflexivity. Qed.

(** ** Rendering a severity *)

Lemma levelToString_name (l : LogLevel) : levelToString l = level_name l.
Proof. destruct l; reflexivity. Qed.


(** ** One call of [log] *)

Lemma file_append_lookup (p s : string) (fs : gmap string string) :
  file_append p s fs !! p = Some (file_content p fs +:+ s).
Proof. unfold file_append, file_content. apply lookup_insert_eq. Qed.

Lemma file_append_lookup_ne (p q s : string) (fs : gmap string string) :
  p <> q -> file_append p s fs !! q = fs !! q.
Proof. intros H. unfold file_append. now apply lookup_insert_ne. Qed.

Lemma file_append_content (p s : string) (fs : gmap string string) :
  file_content p (file_append p s fs) = file_content p fs +:+ s.
Proof. unfold file_content at 1. now rewrite file_append_lookup. Qed.

Lemma file_append_twice (p a b : string) (fs : gmap string string) :
  file_append p b (file_append p a fs) = file_append p (a +:+ b) fs.
Proof.
  unfold file_append at 1. rewrite file_append_lookup. simpl.
  unfold file_append, file_content. rewrite insert_insert_eq.
  now rewrite app_assoc_s.
Qed.

(** [log] is its filter followed by the guarded block. *)
Lemma log_unfold (level : LogLevel) (message : string) (st : St) :
  log level message st =
  if level_lt level (minimumLevel st.1) then Some (tt, st)
  else match mutex_lock st with
       | Some st' => Some (tt, after_entry level message st')
       | None => None
       end.
Proof.
  unfold log, bind, get_minimumLevel, ret.
  destruct (level_lt level (minimumLevel st.1)); [reflexivity |].
  unfold lock_guard. destruct (mutex_lock st) as [st'|]; [| reflexivity].
  unfold getCurrentTime, after_entry. destruct (clock_read st') as [t st2].
  unfold lift, after_cout, after_cout_endl, after_is_open, is_open.
  destruct (bool_decide (is_Some (logfile (cout_write endl (cout_write _ st2)).1)));
    reflexivity.
Qed.

Lemma log_accepted (level : LogLevel) (message : string) (lg : Logger) (w : World) :
  level_lt level (minimumLevel lg) = false ->
  logMutex lg = false ->
  log level message (lg, w) = Some (tt, (lg, log_world level message lg w)).
Proof.
  intros Hlt Hm. rewrite log_unfold. simpl. rewrite Hlt.
  destruct lg as [lf ml mx]. simpl in *. subst mx.
  unfold mutex_lock. simpl.
  unfold after_entry, clock_read, after_cout, after_cout_endl, after_is_open. simpl.
  destruct lf as [p|]; simpl.
  - unfold after_file, after_file_endl, after_release, logfile_write, mutex_unlock,
      log_world, emit. simpl.
    rewrite file_append_twice. rewrite <- !(assoc_L (++)). simpl.
    rewrite app_assoc_s. reflexivity.
  - unfold after_release, mutex_unlock, log_world, emit. simpl.
    rewrite <- !(assoc_L (++)). simpl. rewrite app_assoc_s. reflexivity.
Qed.

Lemma log_filtered (level : LogLevel) (message : string) (st : St) :
  level_lt level (minimumLevel st.1) = true ->
  log level message st = Some (tt, st).
Proof. intros H. rewrite log_unfold. now rewrite H. Qed.

Lemma log_blocked (level : LogLevel) (message : string) (st : St) :
  level_lt level (minimumLevel st.1) = false ->
  logMutex st.1 = true ->
  log level message st = None.
Proof.
  intros H Hm. rewrite log_unfold, H. unfold mutex_lock. now rewrite Hm.
Qed.

(** ** Calls in sequence *)

Lemma lines_app (es1 es2 : list string) :
  lines (es1 ++ es2) = lines es1 +:+ lines es2.
Proof.
  induction es1 as [|e es1 IH]; [reflexivity |].
  simpl. rewrite IH. now rewrite !app_assoc_s.
Qed.

Lemma extends_nil (lg : Logger) (w : World) : extends lg w [] w.
Proof.
  split; simpl; intros; try reflexivity; try assumption.
  - now rewrite app_nil_r_s.
  - lia.
  - now rewrite app_nil_r.
  - now rewrite app_nil_r_s.
Qed.

Lemma extends_app (lg : Logger) (w w1 w2 : World) (es1 es2 : list string) :
  extends lg w es1 w1 -> extends lg w1 es2 w2 -> extends lg w (es1 ++ es2) w2.
Proof.
  intros [] []. split; intros.
  - rewrite lines_app, <- app_assoc_s. congruence.
  - congruence.
  - rewrite length_app. lia.
  - congruence.
  - congruence.
  - congruence.
  - unfold entries_events in *. rewrite flat_map_app, (assoc_L (++)). congruence.
  - rewrite lines_app, <- app_assoc_s.
    rewrite (ext_file1 p), (ext_file0 p); auto.
  - eauto.
  - rewrite ext_files_other1, ext_files_other0; auto.
Qed.

Lemma extends_log (level : LogLevel) (message : string) (lg : Logger) (w : World) :
  extends lg w [build_entry (put_time (time_src w (reads w))) level message]
          (log_world level message lg w).
Proof.
  split; simpl; intros.
  - now rewrite app_nil_r_s.
  - reflexivity.
  - lia.
  - reflexivity.
  - reflexivity.
  - reflexivity.
  - unfold entry_events. now rewrite app_nil_r.
  - rewrite H, app_nil_r_s. apply file_append_content.
  - rewrite H, file_append_lookup. eauto.
  - destruct (logfile lg) as [p|]; [| reflexivity].
    apply file_append_lookup_ne. congruence.
Qed.

(** A caller that finds the mutex free gets through any sequence of calls,
    and the world afterwards is the world before plus one entry per
    accepted call. *)
Lemma log_all_effect (calls : list (LogLevel * string)) (lg : Logger) (w : World) :
  logMutex lg = false ->
  exists w',
    log_all calls (lg, w) = Some (tt, (lg, w')) /\
    extends lg w (entries_of (minimumLevel lg) (time_src w) (reads w) calls) w'.
Proof.
  intros Hm. revert w. induction calls as [|[level message] rest IH]; intros w.
  - exists w. split; [reflexivity | apply extends_nil].
  - simpl. unfold bind.
    destruct (level_lt level (minimumLevel lg)) eqn:Hlt.
    + rewrite log_filtered by exact Hlt. apply IH.
    + rewrite log_accepted by assumption.
      destruct (IH (log_world level message lg w)) as (w' & Hrun & Hext).
      exists w'. split; [exact Hrun |].
      change (build_entry _ level message :: ?l) with ([build_entry (put_time (time_src w (reads w))) level message] ++ l).
      eapply extends_app; [apply extends_log | exact Hext].
Qed.

Lemma log_all_app (c1 c2 : list (LogLevel * string)) (st : St) :
  log_all (c1 ++ c2) st =
  match log_all c1 st with
  | Some (_, st') => log_all c2 st'
  | None => None
  end.
Proof.
  revert st. induction c1 as [|[level message] c1 IH]; intros st; [reflexivity |].
  simpl. unfold bind. destruct (log level message st) as [[[] st1]|]; [apply IH | reflexivity].
Qed.

(** ** The claims about a single call *)

(** Claim C8.  The severities are totally ordered by their integer rank,
    DEBUG < INFO < WARNING < ERROR < CRITICAL, and that comparison alone
    decides whether [log] filters a call: whatever the message, the state of
    the file sink or the world, the call leaves everything as it was exactly
    when the rank of its severity is below the rank of the threshold. *)
Theorem C8_severity_order :
  (rank DEBUG < rank INFO /\ rank INFO < rank WARNING /\
   rank WARNING < rank ERROR /\ rank ERROR < rank CRITICAL) /\
  (forall a b, rank a = rank b -> a = b) /\
  (forall a b, level_lt a b = true <-> rank a < rank b) /\
  (forall a, level_lt a a = false) /\
  (forall a b c, level_lt a b = true -> level_lt b c = true -> level_lt a c = true) /\
  (forall a b, level_lt a b = true \/ a = b \/ level_lt b a = true) /\
  (forall level message st,
     log level message st = Some (tt, st) <-> rank level < rank (minimumLevel st.1)).
Proof.
  split; [simpl; lia |].
  split; [exact rank_inj |].
  split; [exact level_lt_spec |].
  split; [intros a; unfold level_lt; apply Z.ltb_irrefl |].
  split; [intros a b c; rewrite !level_lt_spec; lia |].
  split.
  { intros a b. rewrite !level_lt_spec.
    destruct (Z.lt_trichotomy (rank a) (rank b)) as [H | [H | H]]; auto using rank_inj. }
  intros level message [lg w]. rewrite <- level_lt_spec. simpl. split.
  - intros Hrun. destruct (level_lt level (minimumLevel lg)) eqn:Hlt; [reflexivity |].
    destruct (logMutex lg) eqn:Hm.
    + rewrite log_blocked in Hrun by assumption. discriminate Hrun.
    + rewrite log_accepted in Hrun by assumption.
      injection Hrun as Hw. apply (f_equal reads) in Hw. simpl in Hw. lia.
  - intros Hlt. now apply log_filtered.
Qed.

Lemma C8_severity_order_witness :
  level_lt WARNING ERROR = true /\ level_lt ERROR CRITICAL = true /\
  level_lt WARNING CRITICAL = true.
Proof.
  assert (H1 : level_lt WARNING ERROR = true) by reflexivity.
  assert (H2 : level_lt ERROR CRITICAL = true) by reflexivity.
  split; [exact H1 | split; [exact H2 |]].
  exact (proj1 (proj2 (proj2 (proj2 (proj2 C8_severity_order))))
           WARNING ERROR CRITICAL H1 H2).
Defined.





(** Claim C5.  Each of [debug], [info], [warning], [error], [critical] is
    [log] at its own severity: the same function of the message, the logger
    and the world, hence the same output and the same effects. *)
Theorem C5_wrappers_forward :
  forall message : string,
    debug message = log DEBUG message /\
    info message = log INFO message /\
    warning message = log WARNING message /\
    error message = log ERROR message /\
    critical message = log CRITICAL message.
Proof. intros message. repeat split. Qed.

(** Claim C2.  With the threshold at [m], a call [log s msg] that finds the
    mutex free returns; when [s] is below [m] nothing at all has changed
    (no byte in either sink, no clock reading, no event, so no lock either);
    otherwise one entry and its terminator went to the console and, when
    the file sink is open, to the file, under the mutex.  So the console
    grows exactly when [m <= s]. *)
Theorem C2_filter :
  forall (s : LogLevel) (msg : string) (lg : Logger) (w : World),
    logMutex lg = false ->
    exists w',
      log s msg (lg, w) = Some (tt, (lg, w')) /\
      (rank s < rank (minimumLevel lg) -> w' = w) /\
      (rank (minimumLevel lg) <= rank s ->
         let e := build_entry (put_time (time_src w (reads w))) s msg in
         cout w' = cout w +:+ e +:+ endl /\
         (forall p, logfile lg = Some p ->
            files w' !! p = Some (file_content p (files w) +:+ e +:+ endl)) /\
         (logfile lg = None -> files w' = files w) /\
         reads w' = S (reads w) /\
         trace w' = trace w ++ entry_events (logfile lg) e) /\
      (cout w' <> cout w <-> rank (minimumLevel lg) <= rank s) /\
      (files w' <> files w -> rank (minimumLevel lg) <= rank s).
Proof.
  intros s msg lg w Hm.
  destruct (level_lt s (minimumLevel lg)) eqn:Hlt.
  - pose proof (proj1 (level_lt_spec _ _) Hlt) as Hr.
    exists w. split; [now apply log_filtered |].
    split; [reflexivity |].
    split; [intros; lia |].
    split; [split; [congruence | lia] | congruence].
  - pose proof (proj1 (level_lt_false _ _) Hlt) as Hr.
    exists (log_world s msg lg w). split; [now apply log_accepted |].
    split; [intros; lia |].
    split.
    { intros _. simpl. split; [reflexivity |].
      split; [intros p Hp; rewrite Hp, file_append_lookup; reflexivity |].
      split; [intros ->; reflexivity |].
      split; reflexivity. }
    split; [| intros _; exact Hr].
    split; [intros _; exact Hr |].
    intros _ Heq. simpl in Heq.
    apply app_eq_self_inv in Heq.
    unfold build_entry in Heq. simpl in Heq. discriminate Heq.
Qed.

Lemma C2_filter_witness :
  exists w',
    log ERROR "y" (mk_Logger (Some "a.log") WARNING false, sample_world)
      = Some (tt, (mk_Logger (Some "a.log") WARNING false, w')) /\
    cout w' = "[2024-02-03 09:05:00][ERROR]y" +:+ endl.
Proof.
  destruct (C2_filter ERROR "y" (mk_Logger (Some "a.log") WARNING false)
              sample_world eq_refl) as (w' & Hrun & _ & Hacc & _).
  exists w'. split; [exact Hrun |].
  apply Hacc. simpl. lia.
Defined.

(** ** Timestamps *)

Lemma digit_cases (n : Z) :
  let d := n mod 10 in
  (d = 0 \/ d = 1 \/ d = 2 \/ d = 3 \/ d = 4 \/ d = 5 \/ d = 6 \/ d = 7 \/ d = 8 \/ d = 9).
Proof. intros d. pose proof (Z.mod_pos_bound n 10 ltac:(lia)). subst d. lia. Qed.

Lemma is_digit_digit (n : Z) : is_digit (digit n) = true.
Proof.
  unfold digit.
  destruct (digit_cases n) as [H|[H|[H|[H|[H|[H|[H|[H|[H|H]]]]]]]]];
    rewrite H; reflexivity.
Qed.

Lemma digit_val_digit (n : Z) : digit_val (digit n) = n mod 10.
Proof.
  unfold digit.
  destruct (digit_cases n) as [H|[H|[H|[H|[H|[H|[H|[H|[H|H]]]]]]]]];
    rewrite H; reflexivity.
Qed.

Lemma read2_two (n : Z) : 0 <= n <= 99 -> read2 (digit (n / 10)) (digit n) = n.
Proof.
  intros H. unfold read2. rewrite !digit_val_digit.
  rewrite (Z.mod_small (n / 10) 10).
  - pose proof (Z.div_mod n 10 ltac:(lia)). lia.
  - split; [apply Z.div_pos; lia | apply Z.div_lt_upper_bound; lia].
Qed.

Lemma to_string_four (n : Z) : 1000 <= n <= 9999 -> to_string n = four n.
Proof.
  intros H. unfold to_string, four, two.
  assert ((n <? 0) = false) as -> by lia.
  assert (Hd1 : 100 <= n / 10 <= 999).
  { split; [apply Z.div_le_lower_bound; lia | apply Z.lt_succ_r, Z.div_lt_upper_bound; lia]. }
  assert (Hd2 : 10 <= n / 100 <= 99).
  { split; [apply Z.div_le_lower_bound; lia | apply Z.lt_succ_r, Z.div_lt_upper_bound; lia]. }
  assert (Hd3 : 1 <= n / 1000 <= 9).
  { split; [apply Z.div_le_lower_bound; lia | apply Z.lt_succ_r, Z.div_lt_upper_bound; lia]. }
  assert (Hd4 : n / 10000 = 0) by (apply Z.div_small; lia).
  assert (E2 : n / 10 / 10 = n / 100) by (rewrite Z.div_div by lia; reflexivity).
  assert (E3 : n / 100 / 10 = n / 1000) by (rewrite Z.div_div by lia; reflexivity).
  assert (E4 : n / 1000 / 10 = n / 10000) by (rewrite Z.div_div by lia; reflexivity).
  simpl dec_digits.
  assert ((n / 10 =? 0) = false) as -> by lia.
  rewrite E2. assert ((n / 100 =? 0) = false) as -> by lia.
  rewrite E3. assert ((n / 1000 =? 0) = false) as -> by lia.
  rewrite E4, Hd4. reflexivity.
Qed.

Lemma fmt2_two (n : Z) : 0 <= n <= 99 -> fmt2 n = two n.
Proof.
  intros H. unfold fmt2, two, to_string.
  assert ((n <? 0) = false) as -> by lia.
  assert ((0 <=? n) = true) as -> by lia. simpl andb.
  destruct (n <? 10) eqn:Hlt.
  - assert (n / 10 = 0) as Hq by (apply Z.div_small; lia).
    simpl dec_digits. rewrite Hq. reflexivity.
  - assert (Hd1 : 1 <= n / 10 <= 9).
    { split; [apply Z.div_le_lower_bound; lia | apply Z.lt_succ_r, Z.div_lt_upper_bound; lia]. }
    assert (n / 10 / 10 = 0) as Hq.
    { rewrite Z.div_div by lia. apply Z.div_small; lia. }
    simpl dec_digits.
    assert ((n / 10 =? 0) = false) as -> by lia.
    rewrite Hq. reflexivity.
Qed.

(** Under [tm_ok] the output of [put_time] has the fixed-width shape. *)
Lemma put_time_text (t : tm) : tm_ok t -> put_time t = timestamp_text t.
Proof.
  intros (Hs & Hmi & Hh & Hd & Hmo & Hy).
  unfold put_time, timestamp_text.
  rewrite to_string_four by lia.
  rewrite !fmt2_two by lia. reflexivity.
Qed.

Lemma parse_timestamp_text (t : tm) : tm_ok t -> parse_timestamp (timestamp_text t) = Some t.
Proof.
  intros (Hs & Hmi & Hh & Hd & Hmo & Hy).
  unfold timestamp_text, four, two.
  rewrite !app_cons_s, !app_nil_l_s. 
  unfold parse_timestamp. simpl list_ascii_of_string. cbv iota beta.
  unfold forallb. rewrite !is_digit_digit. 
  change (is_char "-" 45) with true. change (is_char " " 32) with true.
  change (is_char ":" 58) with true. simpl andb. cbv iota.
  rewrite !read2_two by lia.
  set (y := tm_year t + 1900) in *.
  assert (read2 (digit (y / 1000)) (digit (y / 100)) = y / 100) as ->.
  { replace (y / 1000) with (y / 100 / 10) by (rewrite Z.div_div by lia; reflexivity).
    apply read2_two.
    split; [apply Z.div_pos; lia | apply Z.lt_succ_r, Z.div_lt_upper_bound; lia]. }
  assert (read2 (digit (y / 10)) (digit y) = y mod 100) as ->.
  { unfold read2. rewrite !digit_val_digit.
    pose proof (Z.div_mod y 10 ltac:(lia)).
    pose proof (Z.div_mod (y / 10) 10 ltac:(lia)).
    pose proof (Z.div_mod y 100 ltac:(lia)).
    pose proof (Z.mod_pos_bound y 10 ltac:(lia)).
    pose proof (Z.mod_pos_bound (y / 10) 10 ltac:(lia)).
    pose proof (Z.mod_pos_bound y 100 ltac:(lia)).
    assert (y / 10 / 10 = y / 100) by (rewrite Z.div_div by lia; reflexivity).
    lia. }
  pose proof (Z.div_mod y 100 ltac:(lia)).
  destruct t; simpl in *. f_equal. f_equal; subst y; lia.
Qed.

(** Claim C3.  An accepted call sends to the console, and to the file when
    it is open, the very same bytes: an opening bracket, the local time read
    from the clock during the call as [YYYY-MM-DD HH:MM:SS] (nineteen
    characters from which the six fields read back exactly, so to the
    second), a closing bracket, the upper-case name of the severity between
    brackets, the message right behind the bracket, and the terminator. *)
Theorem C3_line_format :
  forall (level : LogLevel) (message : string) (lg : Logger) (w : World),
    logMutex lg = false ->
    rank (minimumLevel lg) <= rank level ->
    tm_ok (time_src w (reads w)) ->
    exists (w' : World) (ts : string),
      log level message (lg, w) = Some (tt, (lg, w')) /\
      ts = timestamp_text (time_src w (reads w)) /\
      parse_timestamp ts = Some (time_src w (reads w)) /\
      String.length ts = 19%nat /\
      let line :=
        "[" +:+ ts +:+ "]" +:+ "[" +:+ level_name level +:+ "]" +:+ message +:+ endl in
      cout w' = cout w +:+ line /\
      (forall p, logfile lg = Some p ->
         files w' !! p = Some (file_content p (files w) +:+ line)) /\
      (logfile lg = None -> files w' = files w).
Proof.
  intros level message lg w Hm Hr Hok.
  apply level_lt_false in Hr.
  exists (log_world level message lg w), (timestamp_text (time_src w (reads w))).
  split; [now apply log_accepted |].
  split; [reflexivity |].
  split; [now apply parse_timestamp_text |].
  split.
  { unfold timestamp_text, four, two. rewrite !app_length_s. reflexivity. }
  assert (Hline :
    build_entry (put_time (time_src w (reads w))) level message +:+ endl =
    "[" +:+ timestamp_text (time_src w (reads w)) +:+ "]" +:+ "[" +:+
      level_name level +:+ "]" +:+ message +:+ endl).
  { unfold build_entry. rewrite put_time_text by exact Hok.
    rewrite levelToString_name. now rewrite !app_assoc_s. }
  simpl. rewrite <- Hline.
  split; [reflexivity |].
  split; [intros p Hp; rewrite Hp, file_append_lookup; reflexivity |].
  intros ->. reflexivity.
Qed.

Lemma C3_line_format_witness :
  exists w',
    info "boot" (mk_Logger (Some "a.log") DEBUG false, sample_world)
      = Some (tt, (mk_Logger (Some "a.log") DEBUG false, w')) /\
    cout w' = "[2024-02-03 09:05:00][INFO]boot" +:+ endl /\
    files w' !! "a.log" = Some ("[2024-02-03 09:05:00][INFO]boot" +:+ endl).
Proof.
  assert (Hok : tm_ok (time_src sample_world (reads sample_world)))
    by (vm_compute; repeat split; discriminate).
  assert (Hr : rank DEBUG <= rank INFO) by (simpl; lia).
  destruct (C3_line_format INFO "boot" (mk_Logger (Some "a.log") DEBUG false)
              sample_world eq_refl Hr Hok)
    as (w' & ts & Hrun & Hts & _ & _ & Hcout & Hfile & _).
  exists w'. split; [exact Hrun |].
  subst ts. split; [exact Hcout |].
  exact (Hfile "a.log" eq_refl).
Defined.

(** ** Construction and destruction *)

Lemma Logger_new_open (filename : option string) (minLevel : option LogLevel) (w : World) :
  openable w (default "app.log" filename) = true ->
  Logger_new filename minLevel w =
    (mk_Logger (Some (default "app.log" filename)) (default INFO minLevel) false,
     mk_World (cout w) (cerr w)
       (file_append (default "app.log" filename) "" (files w))
       (openable w) (time_src w) (reads w) (environ w)
       (trace w ++ [EvOpen (default "app.log" filename) true])).
Proof.
  intros H. unfold Logger_new, logfile_open. simpl. rewrite H. reflexivity.
Qed.

Lemma Logger_new_fail (filename : option string) (minLevel : option LogLevel) (w : World) :
  openable w (default "app.log" filename) = false ->
  Logger_new filename minLevel w =
    (mk_Logger None (default INFO minLevel) false,
     mk_World (cout w)
       (cerr w +:+ "Failed to open the log file : " +:+ default "app.log" filename +:+ endl)
       (files w) (openable w) (time_src w) (reads w) (environ w)
       (trace w ++ [EvOpen (default "app.log" filename) false;
                    EvCerr "Failed to open the log file : ";
                    EvCerr (default "app.log" filename); EvCerr endl])).
Proof.
  intros H. unfold Logger_new, logfile_open. simpl. rewrite H. simpl.
  unfold cerr_write, emit. simpl.
  rewrite !app_assoc_s, <- !(assoc_L (++)). reflexivity.
Qed.

Lemma file_append_empty_content (p : string) (fs : gmap string string) :
  file_append p "" fs !! p = Some (file_content p fs).
Proof. rewrite file_append_lookup. now rewrite app_nil_r_s. Qed.

Lemma extends_files_closed (lg : Logger) (w w' : World) (es : list string) :
  logfile lg = None -> extends lg w es w' -> files w' = files w.
Proof.
  intros Hc Hext. apply map_eq. intros q.
  apply (ext_files_other _ _ _ _ Hext). rewrite Hc. discriminate.
Qed.

Lemma extends_file_lookup (lg : Logger) (w w' : World) (es : list string) (p : string) :
  logfile lg = Some p -> is_Some (files w !! p) -> extends lg w es w' ->
  files w' !! p = Some (file_content p (files w) +:+ lines es).
Proof.
  intros Hp Hsome Hext.
  destruct (ext_file_some _ _ _ _ Hext p Hp Hsome) as [c Hc].
  pose proof (ext_file _ _ _ _ Hext p Hp) as Hcontent.
  unfold file_content at 1 in Hcontent. rewrite Hc in Hcontent. simpl in Hcontent.
  congruence.
Qed.

(** Claim C4.  When the file cannot be opened, construction still yields a
    logger (console only, mutex free, threshold as asked).  The only trace
    of the failure is one line on the error stream; console and files are
    untouched.  Every later sequence of calls returns, adds nothing to the
    error stream or to any file, and leaves on the console exactly what a
    logger whose file did open leaves there from the same console and the
    same clock. *)
Theorem C4_degraded_mode :
  forall (filename : option string) (minLevel : option LogLevel) (w : World)
         (calls : list (LogLevel * string)),
    let path := default "app.log" filename in
    openable w path = false ->
    let st0 := Logger_new filename minLevel w in
    (logfile st0.1 = None /\ logMutex st0.1 = false /\
     minimumLevel st0.1 = default INFO minLevel) /\
    (cerr st0.2 = cerr w +:+ "Failed to open the log file : " +:+ path +:+ endl /\
     cout st0.2 = cout w /\ files st0.2 = files w /\
     trace st0.2 = trace w ++ [EvOpen path false;
                               EvCerr "Failed to open the log file : ";
                               EvCerr path; EvCerr endl]) /\
    exists w',
      log_all calls st0 = Some (tt, (st0.1, w')) /\
      cerr w' = cerr st0.2 /\ files w' = files w /\
      cout w' = cout w +:+ lines (entries_of (default INFO minLevel) (time_src w)
                                             (reads w) calls) /\
      (forall w2 : World,
         openable w2 path = true ->
         cout w2 = cout w -> time_src w2 = time_src w -> reads w2 = reads w ->
         exists lg2 w2',
           log_all calls (Logger_new filename minLevel w2) = Some (tt, (lg2, w2')) /\
           logfile lg2 = Some path /\
           cout w2' = cout w').
Proof.
  intros filename minLevel w calls path Hfail st0. subst st0.
  rewrite (Logger_new_fail filename minLevel w Hfail). fold path. simpl.
  split; [repeat split |]. split; [repeat split |].
  set (lg := mk_Logger None (default INFO minLevel) false).
  match goal with |- context [log_all calls (lg, ?x)] => set (w0 := x) end.
  destruct (log_all_effect calls lg w0 eq_refl) as (w' & Hrun & Hext).
  exists w'. split; [exact Hrun |].
  split; [exact (ext_cerr _ _ _ _ Hext) |].
  split; [exact (extends_files_closed lg w0 w' _ eq_refl Hext) |].
  split; [exact (ext_cout _ _ _ _ Hext) |].
  intros w2 Hopen Hcout Hsrc Hreads.
  rewrite (Logger_new_open filename minLevel w2 Hopen). fold path.
  set (lg2 := mk_Logger (Some path) (default INFO minLevel) false).
  match goal with |- context [log_all calls (lg2, ?x)] => set (w20 := x) end.
  destruct (log_all_effect calls lg2 w20 eq_refl) as (w2' & Hrun2 & Hext2).
  exists lg2, w2'. split; [exact Hrun2 |]. split; [reflexivity |].
  rewrite (ext_cout _ _ _ _ Hext2), (ext_cout _ _ _ _ Hext).
  subst w20 w0 lg lg2. simpl. now rewrite Hcout, Hsrc, Hreads.
Qed.

Lemma C4_degraded_mode_witness :
  exists w',
    log_all [(DEBUG, "x"); (ERROR, "y")]
      (Logger_new (Some "/no/such/dir/app.log") None sample_world)
      = Some (tt, (mk_Logger None INFO false, w')) /\
    cerr w' = "Failed to open the log file : /no/such/dir/app.log" +:+ endl /\
    cout w' = "[2024-02-03 09:05:00][ERROR]y" +:+ endl.
Proof.
  destruct (C4_degraded_mode (Some "/no/such/dir/app.log") None sample_world
              [(DEBUG, "x"); (ERROR, "y")] eq_refl)
    as (_ & _ & w' & Hrun & Hcerr & _ & Hcout & _).
  exists w'. split; [exact Hrun |]. split; [exact Hcerr | exact Hcout].
Defined.

(** Claim C7.  The constructor opens the file for appending: what the file
    held is still there after construction (an absent file is created
    empty), and after any sequence of calls the file holds its former
    content followed by one line per accepted call, in call order.  A second
    logger built on the same path after the first one is gone adds its lines
    behind those of the first. *)
Theorem C7_append_only :
  forall (filename : option string) (minA minB : option LogLevel) (w : World)
         (callsA callsB : list (LogLevel * string)),
    let path := default "app.log" filename in
    openable w path = true ->
    let stA := Logger_new filename minA w in
    files stA.2 !! path = Some (file_content path (files w)) /\
    (forall q, q <> path -> files stA.2 !! q = files w !! q) /\
    exists wA wA' wB,
      log_all callsA stA = Some (tt, (stA.1, wA)) /\
      files wA !! path =
        Some (file_content path (files w) +:+
              lines (entries_of (default INFO minA) (time_src w) (reads w) callsA)) /\
      Logger_delete (stA.1, wA) = Some (tt, (mk_Logger None (default INFO minA) false, wA')) /\
      files wA' = files wA /\
      log_all callsB (Logger_new filename minB wA')
        = Some (tt, ((Logger_new filename minB wA').1, wB)) /\
      files wB !! path =
        Some (file_content path (files w) +:+
              lines (entries_of (default INFO minA) (time_src w) (reads w) callsA) +:+
              lines (entries_of (default INFO minB) (time_src wA) (reads wA) callsB)).
Proof.
  intros filename minA minB w callsA callsB path Hopen stA. subst stA.
  rewrite (Logger_new_open filename minA w Hopen). fold path. simpl.
  split; [apply file_append_empty_content |].
  split; [intros q Hq; apply file_append_lookup_ne; congruence |].
  set (lgA := mk_Logger (Some path) (default INFO minA) false).
  match goal with |- context [log_all callsA (lgA, ?x)] => set (w0 := x) end.
  destruct (log_all_effect callsA lgA w0 eq_refl) as (wA & HrunA & HextA).
  assert (HfA : files wA !! path =
            Some (file_content path (files w) +:+
                  lines (entries_of (default INFO minA) (time_src w) (reads w) callsA))).
  { rewrite (extends_file_lookup lgA w0 wA _ path eq_refl) by
      (try exact HextA; subst w0; simpl; rewrite file_append_empty_content; eauto).
    subst w0. simpl. unfold file_content at 1.
    now rewrite file_append_empty_content. }
  set (wA' := emit (EvClose path) wA).
  assert (HopenA : openable wA' path = true).
  { subst wA'. simpl. rewrite (ext_openable _ _ _ _ HextA). exact Hopen. }
  exists wA, wA'.
  rewrite (Logger_new_open filename minB wA' HopenA). fold path.
  set (lgB := mk_Logger (Some path) (default INFO minB) false).
  match goal with |- context [log_all callsB (lgB, ?x)] => set (w1 := x) end.
  destruct (log_all_effect callsB lgB w1 eq_refl) as (wB & HrunB & HextB).
  exists wB.
  split; [exact HrunA |]. split; [exact HfA |].
  split; [reflexivity |]. split; [reflexivity |].
  split; [exact HrunB |].
  rewrite (extends_file_lookup lgB w1 wB _ path eq_refl) by
    (try exact HextB; subst w1 wA'; simpl; rewrite file_append_empty_content; eauto).
  subst w1 wA'. simpl. unfold file_content at 1.
  rewrite file_append_empty_content. unfold file_content at 1. rewrite HfA. simpl.
  now rewrite app_assoc_s.
Qed.

Lemma C7_append_only_witness :
  exists wB,
    files wB !! "a.log" =
      Some ("[2024-02-03 09:05:00][INFO]A" +:+ endl +:+
            "[2024-02-03 09:05:01][INFO]B" +:+ endl).
Proof.
  destruct (C7_append_only (Some "a.log") None None sample_world
              [(INFO, "A")] [(INFO, "B")] eq_refl)
    as (_ & _ & wA & wA' & wB & HrunA & _ & _ & _ & _ & HfB).
  exists wB.
  assert (HwA : wA = log_world INFO "A" (mk_Logger (Some "a.log") INFO false)
                  (Logger_new (Some "a.log") None sample_world).2).
  { vm_compute in HrunA. injection HrunA as <-. reflexivity. }
  rewrite HwA in HfB. exact HfB.
Defined.

(** ** Callers side by side *)

Lemma sys_steps_trans (s1 s2 s3 : Sys) :
  sys_steps s1 s2 -> sys_steps s2 s3 -> sys_steps s1 s3.
Proof.
  intros H12 H23. induction H23 as [|s2 s3 s4 _ IH Hstep]; [exact H12 |].
  eapply sys_steps_step; [apply IH; exact H12 | exact Hstep].
Qed.

Lemma sys_steps_one (s1 s2 : Sys) : sys_step s1 s2 -> sys_steps s1 s2.
Proof. intros H. eapply sys_steps_step; [apply sys_steps_refl | exact H]. Qed.

(** A schedule only ever takes steps of the relation. *)
Lemma sched_step_steps (i : nat) (s : Sys) : sys_steps s (sched_step i s).
Proof.
  unfold sched_step. destruct (threads s !! i) as [th|] eqn:Hth; [| apply sys_steps_refl].
  destruct (thread_step (shared s) th) as [[st' th']|] eqn:Hstep; [| apply sys_steps_refl].
  apply sys_steps_one. destruct s as [st ths]. simpl in *.
  pose proof (take_drop_middle ths i th Hth) as Hsplit.
  rewrite <- Hsplit at 1.
  replace (<[i:=th']> ths) with (take i ths ++ th' :: drop (S i) ths).
  - now constructor.
  - rewrite <- Hsplit at 3.
    assert (Hlen : length (take i ths) = i).
    { apply length_take_le. apply lookup_lt_Some in Hth. lia. }
    rewrite <- Hlen at 3. rewrite insert_app_r_alt by lia.
    rewrite Nat.sub_diag. reflexivity.
Qed.

Lemma run_sched_steps (sched : list nat) (s : Sys) : sys_steps s (run_sched sched s).
Proof.
  revert s. induction sched as [|i sched IH]; intros s; [apply sys_steps_refl |].
  simpl. eapply sys_steps_trans; [apply sched_step_steps | apply IH].
Qed.

(** *** What one statement does *)

Lemma thread_step_logger (st st' : St) (th th' : Thread) :
  thread_step st th = Some (st', th') ->
  logfile st'.1 = logfile st.1 /\ minimumLevel st'.1 = minimumLevel st.1.
Proof.
  unfold thread_step. intros H.
  destruct (pc th); simpl in H.
  - destruct (prog th) as [|[level message|ms] rest]; [discriminate | |].
    + destruct (level_lt level (minimumLevel st.1)); injection H as <- <-; auto.
    + injection H as <- <-; auto.
  - unfold mutex_lock in H. destruct (logMutex st.1); [discriminate |].
    injection H as <- <-; auto.
  - injection H as <- <-; auto.
  - injection H as <- <-; auto.
  - injection H as <- <-; auto.
  - destruct (bool_decide _); injection H as <- <-; auto.
  - injection H as <- <-. unfold logfile_write.
    destruct (logfile st.1) eqn:Hlf; simpl; rewrite ?Hlf; auto.
  - injection H as <- <-. unfold logfile_write.
    destruct (logfile st.1) eqn:Hlf; simpl; rewrite ?Hlf; auto.
  - injection H as <- <-; auto.
Qed.

(** Outside the block a caller touches nothing. *)
Lemma thread_step_idle (st st' : St) (th th' : Thread) :
  thread_step st th = Some (st', th') ->
  pc th = Idle ->
  st' = st /\ in_cs (pc th') = false /\
  pending (minimumLevel st.1) th' = pending (minimumLevel st.1) th /\
  passes (minimumLevel st.1) th' /\
  (weight th' < weight th)%nat.
Proof.
  unfold thread_step, pending, passes, weight. intros H Hpc. rewrite Hpc in *. simpl in *.
  destruct (prog th) as [|[level message|ms] rest]; [discriminate | |].
  - simpl. destruct (level_lt level (minimumLevel st.1)) eqn:Hlt;
      injection H as <- <-; simpl; repeat split; auto; try lia.
  - injection H as <- <-. simpl. repeat split; auto; try lia.
Qed.

(** Entering the block takes the mutex and nothing else. *)
Lemma thread_step_guard (st st' : St) (th th' : Thread) (level : LogLevel) (message : string) :
  thread_step st th = Some (st', th') ->
  pc th = AtGuard level message ->
  logMutex st.1 = false /\ mutex_lock st = Some st' /\ logMutex st'.1 = true /\
  st'.2 = emit EvLock st.2 /\
  pc th' = AtEntry level message /\ prog th' = prog th.
Proof.
  unfold thread_step. intros H Hpc. rewrite Hpc in H.
  destruct (mutex_lock st) as [st1|] eqn:Hlock; [| discriminate].
  injection H as <- <-. unfold mutex_lock in Hlock.
  destruct (logMutex st.1) eqn:Hm; [discriminate |].
  injection Hlock as <-. simpl. repeat split; auto.
Qed.

(** Inside the block, short of its end, a caller moves to the next
    statement of the block and keeps the mutex. *)
Lemma thread_step_inside (st st' : St) (th th' : Thread) :
  thread_step st th = Some (st', th') ->
  in_cs (pc th) = true ->
  call_of (pc th') = [] \/ (
  in_cs (pc th') = true /\ call_of (pc th') = call_of (pc th) /\
  prog th' = prog th /\ logMutex st'.1 = logMutex st.1 /\
  cs_rest (pc th') st' = cs_rest (pc th) st /\
  (pc_weight (pc th') < pc_weight (pc th))%nat).
Proof.
  unfold thread_step. intros H Hin.
  destruct (pc th) eqn:Hpc; simpl in Hin; try discriminate Hin.
  - unfold clock_read in H. injection H as <- <-. right. simpl. repeat split; auto; try lia.
  - injection H as <- <-. right. simpl. repeat split; auto; try lia.
  - injection H as <- <-. right. simpl. repeat split; auto; try lia.
  - right. simpl. unfold after_is_open.
    destruct (bool_decide (is_Some (logfile st.1))); injection H as <- <-;
      simpl; repeat split; auto; try lia.
  - injection H as <- <-. right.
    repeat split; try reflexivity; try (simpl; lia).
    simpl. unfold logfile_write. destruct (logfile st.1); reflexivity.
  - injection H as <- <-. right.
    repeat split; try reflexivity; try (simpl; lia).
    simpl. unfold logfile_write. destruct (logfile st.1); reflexivity.
  - injection H as <- <-. left. reflexivity.
Qed.

(** Leaving the block gives the mutex back and nothing else. *)
Lemma thread_step_release (st st' : St) (th th' : Thread) :
  thread_step st th = Some (st', th') ->
  in_cs (pc th) = true ->
  call_of (pc th') = [] ->
  st' = cs_rest (pc th) st /\ st' = mutex_unlock st /\ pc th' = Idle /\ prog th' = prog th.
Proof.
  unfold thread_step. intros H Hin Hc.
  destruct (pc th) eqn:Hpc; simpl in Hin; try discriminate Hin.
  - unfold clock_read in H. injection H as <- <-. discriminate Hc.
  - injection H as <- <-. discriminate Hc.
  - injection H as <- <-. discriminate Hc.
  - destruct (bool_decide (is_Some (logfile st.1))); injection H as <- <-; discriminate Hc.
  - injection H as <- <-. discriminate Hc.
  - injection H as <- <-. discriminate Hc.
  - injection H as <- <-. repeat split; reflexivity.
Qed.

Lemma thread_step_weight (st st' : St) (th th' : Thread) :
  thread_step st th = Some (st', th') -> (weight th' < weight th)%nat.
Proof.
  intros H. destruct (in_cs (pc th)) eqn:Hin.
  - destruct (thread_step_inside _ _ _ _ H Hin) as [Hc | (_ & _ & Hprog & _ & _ & Hw)].
    + destruct (thread_step_release _ _ _ _ H Hin Hc) as (_ & _ & Hpc & Hprog).
      unfold weight. rewrite Hpc, Hprog. destruct (pc th); simpl in *; try discriminate; lia.
    + unfold weight. rewrite Hprog. lia.
  - destruct (pc th) eqn:Hpc; try discriminate Hin.
    + now apply (thread_step_idle _ _ _ _ H).
    + destruct (thread_step_guard _ _ _ _ _ _ H Hpc) as (_ & _ & _ & _ & Hpc' & Hprog).
      unfold weight. rewrite Hpc, Hpc', Hprog. simpl. lia.
Qed.

Lemma thread_step_inside_enabled (st : St) (th : Thread) :
  in_cs (pc th) = true -> is_Some (thread_step st th).
Proof.
  unfold thread_step. intros Hin.
  destruct (pc th); try discriminate Hin; unfold clock_read;
    try destruct (bool_decide (is_Some (logfile st.1))); eauto.
Qed.

(** *** One caller at a time *)

Lemma holders_mid_in (before after : list Thread) (th : Thread) :
  in_cs (pc th) = true ->
  holders (before ++ th :: after) = holders before ++ th :: holders after.
Proof. intros H. unfold holders. rewrite List.filter_app. simpl. now rewrite H. Qed.

Lemma holders_mid_out (before after : list Thread) (th : Thread) :
  in_cs (pc th) = false ->
  holders (before ++ th :: after) = holders before ++ holders after.
Proof. intros H. unfold holders. rewrite List.filter_app. simpl. now rewrite H. Qed.

Lemma flat_map_mid {A B} (f : A -> list B) (before after : list A) (x : A) :
  flat_map f (before ++ x :: after) = flat_map f before ++ f x ++ flat_map f after.
Proof. rewrite flat_map_app. reflexivity. Qed.

Lemma holds_free_inv (ths : list Thread) (st virt : St) :
  holds ths st virt -> logMutex st.1 = false -> holders ths = [] /\ virt = st.
Proof.
  unfold holds. intros H Hm. destruct (holders ths) as [|h [|h' rest]].
  - now destruct H.
  - destruct H as [Ht _]. congruence.
  - contradiction.
Qed.

Lemma holds_taken_inv (before after : list Thread) (th : Thread) (st virt : St) :
  holds (before ++ th :: after) st virt -> in_cs (pc th) = true ->
  holders before = [] /\ holders after = [] /\ logMutex st.1 = true /\
  exists level message,
    call_of (pc th) = [(level, message)] /\
    log level message virt = Some (tt, cs_rest (pc th) st).
Proof.
  unfold holds. intros H Hin. rewrite holders_mid_in in H by exact Hin.
  destruct (holders before) as [|b bs]; simpl in H.
  - destruct (holders after) as [|a l]; [| contradiction].
    destruct H as [Hm Hcall]. auto.
  - destruct bs; simpl in H; contradiction.
Qed.

Lemma Inv_init (st0 : St) (progs : list (list Action)) :
  logMutex st0.1 = false ->
  Inv st0 (flat_map (accepted (minimumLevel st0.1)) progs) (mk_Sys st0 (spawn progs)).
Proof.
  intros Hm. split; simpl; try reflexivity.
  - unfold spawn. apply Forall_map. apply Forall_forall. intros p _. constructor.
  - exists [], st0. split; [reflexivity |]. split.
    + simpl. unfold spawn. rewrite flat_map_concat_map, map_map, <- flat_map_concat_map.
      reflexivity.
    + unfold holds. replace (holders (spawn progs)) with (@nil Thread); [auto |].
      unfold holders, spawn. induction progs as [|p progs IH]; [reflexivity | exact IH].
Qed.

Lemma Inv_step (st0 : St) (all : list (LogLevel * string)) (s s' : Sys) :
  Inv st0 all s -> sys_step s s' -> Inv st0 all s'.
Proof.
  intros [Hlf Hmin Hpass (order & virt & Hrun & Hperm & Hholds)] Hstep.
  destruct Hstep as [st st' th th' before after Hth]. simpl in *.
  destruct (thread_step_logger _ _ _ _ Hth) as [Hlf' Hmin'].
  apply Forall_app in Hpass as [Hpb Hpa]. apply Forall_cons in Hpa as [Hpt Hpa].
  rewrite flat_map_mid in Hperm.
  destruct (in_cs (pc th)) eqn:Hin.
  - (* the caller inside the block moves *)
    destruct (holds_taken_inv _ _ _ _ _ Hholds Hin)
      as (Hb & Ha & Hm & level & message & Hcall & Hlog).
    destruct (thread_step_inside _ _ _ _ Hth Hin)
      as [Hc | (Hin' & Hcall' & Hprog & Hm' & Hrest & _)].
    + destruct (thread_step_release _ _ _ _ Hth Hin Hc) as (Hst' & Hunl & Hpc' & Hprog).
      split; simpl; try congruence.
      * apply Forall_app. split; [exact Hpb |]. constructor; [| exact Hpa].
        unfold passes. rewrite Hpc'. constructor.
      * exists (order ++ [(level, message)]), st'. split; [| split].
        -- rewrite log_all_app, Hrun. simpl. unfold bind. rewrite Hlog, <- Hst'. reflexivity.
        -- rewrite flat_map_mid. rewrite <- Hperm. unfold pending.
           rewrite Hpc', Hprog, Hcall. simpl.
           rewrite <- (assoc_L (++)). apply Permutation_app_head. simpl.
           apply Permutation_middle.
        -- unfold holds. rewrite holders_mid_out by (rewrite Hpc'; reflexivity).
           rewrite Hb, Ha. simpl. split; [| reflexivity]. rewrite Hunl. reflexivity.
    + split; simpl; try congruence.
      * apply Forall_app. split; [exact Hpb |]. constructor; [| exact Hpa].
        unfold passes in *. now rewrite Hcall'.
      * exists order, virt. split; [exact Hrun |]. split.
        -- rewrite flat_map_mid. unfold pending in *. now rewrite Hcall', Hprog.
        -- unfold holds. rewrite holders_mid_in by exact Hin'. rewrite Hb, Ha. simpl.
           split; [congruence |]. exists level, message.
           split; [congruence |]. now rewrite Hrest.
  - destruct (pc th) eqn:Hpc; try discriminate Hin.
    + (* a caller outside [log] moves *)
      destruct (thread_step_idle _ _ _ _ Hth Hpc) as (Hst & Hin' & Hpend & Hpass' & _).
      rewrite Hmin in Hpend, Hpass'. subst st'.
      split; simpl; try congruence.
      * apply Forall_app. split; [exact Hpb |]. now constructor.
      * exists order, virt. split; [exact Hrun |]. split.
        -- rewrite flat_map_mid, Hpend. exact Hperm.
        -- unfold holds in *. rewrite holders_mid_out by exact Hin'.
           rewrite holders_mid_out in Hholds by (rewrite Hpc; reflexivity). exact Hholds.
    + (* a caller takes the mutex *)
      destruct (thread_step_guard _ _ _ _ _ _ Hth Hpc)
        as (Hm & Hlock & Hm' & _ & Hpc' & Hprog).
      destruct (holds_free_inv _ _ _ Hholds Hm) as [Hnone ->].
      rewrite holders_mid_out in Hnone by (rewrite Hpc; reflexivity).
      apply app_eq_nil in Hnone as [Hb Ha].
      split; simpl; try congruence.
      * apply Forall_app. split; [exact Hpb |]. constructor; [| exact Hpa].
        unfold passes in *. rewrite Hpc'. rewrite Hpc in Hpt. exact Hpt.
      * exists order, st. split; [exact Hrun |]. split.
        -- rewrite flat_map_mid. unfold pending in *.
           rewrite Hpc', Hprog. rewrite Hpc in Hperm. exact Hperm.
        -- unfold holds. rewrite holders_mid_in by (rewrite Hpc'; reflexivity).
           rewrite Hb, Ha. simpl. split; [exact Hm' |].
           exists level, message. rewrite Hpc'. split; [reflexivity |].
           rewrite log_unfold, Hmin. unfold passes in Hpt. rewrite Hpc in Hpt.
           apply Forall_cons in Hpt as [Hlt _]. simpl in Hlt. rewrite Hlt, Hlock.
           reflexivity.
Qed.

Lemma Inv_steps (st0 : St) (all : list (LogLevel * string)) (s s' : Sys) :
  Inv st0 all s -> sys_steps s s' -> Inv st0 all s'.
Proof.
  intros HI Hsteps. induction Hsteps as [|s1 s2 s3 _ IH Hstep]; [exact HI |].
  eapply Inv_step; [apply IH; exact HI | exact Hstep].
Qed.

(** *** Every run ends, with every caller back *)

Lemma sys_step_measure (s s' : Sys) : sys_step s s' -> (measure s' < measure s)%nat.
Proof.
  intros [st st' th th' before after Hth]. unfold measure. simpl.
  rewrite !map_app, !list_sum_app. simpl.
  pose proof (thread_step_weight _ _ _ _ Hth). lia.
Qed.

Lemma forallb_false_split {A} (f : A -> bool) (l : list A) :
  forallb f l = false -> exists before x after, l = before ++ x :: after /\ f x = false.
Proof.
  induction l as [|a l IH]; simpl; [discriminate |].
  destruct (f a) eqn:Hfa; simpl.
  - intros H. destruct (IH H) as (before & x & after & -> & Hx).
    exists (a :: before), x, after. auto.
  - intros _. exists [], a, l. auto.
Qed.

Lemma finished_pending (minLevel : LogLevel) (ths : list Thread) :
  forallb finished ths = true ->
  flat_map (pending minLevel) ths = [] /\ holders ths = [].
Proof.
  induction ths as [|th ths IH]; simpl; [auto |].
  intros H. apply andb_prop in H as [Hth Hths]. destruct (IH Hths) as [-> ->].
  unfold finished in Hth. unfold pending.
  destruct (pc th); try discriminate Hth. destruct (prog th); [auto | discriminate Hth].
Qed.

(** When every caller is back, the logger and the world are what a single
    caller leaves behind after making all the accepted calls in some
    order. *)
Lemma Inv_done (st0 : St) (all : list (LogLevel * string)) (s : Sys) :
  Inv st0 all s -> all_done s = true ->
  exists order, Permutation order all /\ log_all order st0 = Some (tt, shared s).
Proof.
  intros [_ _ _ (order & virt & Hrun & Hperm & Hholds)] Hdone.
  destruct (finished_pending (minimumLevel st0.1) _ Hdone) as [Hpend Hnone].
  rewrite Hpend, app_nil_r in Hperm. unfold holds in Hholds. rewrite Hnone in Hholds.
  destruct Hholds as [_ ->]. eauto.
Qed.

(** The mutex is held exactly when one caller is inside the block, and
    never are two. *)
Lemma Inv_exclusion (st0 : St) (all : list (LogLevel * string)) (s : Sys) :
  Inv st0 all s ->
  (length (holders (threads s)) <= 1)%nat /\
  (logMutex (shared s).1 = true <-> length (holders (threads s)) = 1%nat).
Proof.
  intros [_ _ _ (order & virt & _ & _ & Hholds)]. unfold holds in Hholds.
  destruct (holders (threads s)) as [|h [|h' rest]]; simpl.
  - destruct Hholds as [Hm _]. rewrite Hm. split; [lia | split; discriminate].
  - destruct Hholds as [Hm _]. rewrite Hm. split; [lia | split; reflexivity].
  - contradiction.
Qed.

(** Whoever is not done can be served: the holder of the mutex can always
    move, and when the mutex is free so can anybody. *)
Lemma Inv_progress (st0 : St) (all : list (LogLevel * string)) (s : Sys) :
  Inv st0 all s -> all_done s = false -> exists s', sys_step s s'.
Proof.
  intros [_ _ _ (order & virt & _ & _ & Hholds)] Hnot.
  destruct s as [st ths]. unfold all_done in Hnot. simpl in *. unfold holds in Hholds.
  destruct (holders ths) as [|h [|h' rest]] eqn:Hh; [| | contradiction].
  - destruct Hholds as [Hm _].
    destruct (forallb_false_split _ _ Hnot) as (before & th & after & -> & Hth).
    destruct (in_cs (pc th)) eqn:Hin.
    { rewrite holders_mid_in in Hh by exact Hin. destruct (holders before); discriminate Hh. }
    assert (is_Some (thread_step st th)) as [[st' th'] Hstep].
    { unfold thread_step, finished in *. destruct (pc th); try discriminate Hin.
      - destruct (prog th) as [|[level message|ms] rest]; [discriminate Hth | | eauto].
        destruct (level_lt level (minimumLevel st.1)); eauto.
      - unfold mutex_lock. rewrite Hm. eauto. }
    eexists. constructor. exact Hstep.
  - assert (In h (holders ths)) as Hinh by (rewrite Hh; left; reflexivity).
    unfold holders in Hinh. apply filter_In in Hinh as [Hmem Hin].
    apply in_split in Hmem as (before & after & ->).
    destruct (thread_step_inside_enabled st h Hin) as [[st' th'] Hstep].
    eexists. constructor. exact Hstep.
Qed.

Lemma Inv_completes (st0 : St) (all : list (LogLevel * string)) (s : Sys) :
  Inv st0 all s -> exists s', sys_steps s s' /\ all_done s' = true.
Proof.
  remember (measure s) as n eqn:Hn. revert s Hn.
  induction n as [n IH] using lt_wf_ind. intros s Hn HI.
  destruct (all_done s) eqn:Hdone.
  - exists s. split; [apply sys_steps_refl | exact Hdone].
  - destruct (Inv_progress _ _ _ HI Hdone) as [s1 Hstep].
    pose proof (sys_step_measure _ _ Hstep) as Hlt.
    destruct (IH (measure s1) ltac:(lia) s1 eq_refl (Inv_step _ _ _ _ HI Hstep))
      as (s' & Hsteps & Hdone').
    exists s'. split; [| exact Hdone'].
    eapply sys_steps_trans; [apply sys_steps_one; exact Hstep | exact Hsteps].
Qed.

Lemma sys_steps_count (s s' : Sys) :
  sys_steps s s' <-> exists n, sys_steps_n n s s'.
Proof.
  split.
  - induction 1 as [|s1 s2 s3 _ [n IH] Hstep].
    + exists O. constructor.
    + exists (S n). econstructor; eassumption.
  - intros [n Hn]. induction Hn as [|n s1 s2 s3 _ IH Hstep].
    + constructor.
    + econstructor; eassumption.
Qed.

(** A run is never longer than the work there is to do. *)
Lemma sys_steps_n_bound (n : nat) (s s' : Sys) :
  sys_steps_n n s s' -> (n + measure s' <= measure s)%nat.
Proof.
  induction 1 as [|n s1 s2 s3 _ IH Hstep]; [lia |].
  pose proof (sys_step_measure _ _ Hstep). lia.
Qed.

(** The sinks and the clock are touched from inside the block only. *)
Lemma writes_under_mutex (st0 : St) (all : list (LogLevel * string)) (s s' : Sys) :
  Inv st0 all s -> sys_step s s' ->
  (cout (shared s').2 <> cout (shared s).2 \/ files (shared s').2 <> files (shared s).2 \/
   reads (shared s').2 <> reads (shared s).2) ->
  logMutex (shared s).1 = true /\ logMutex (shared s').1 = true.
Proof.
  intros HI Hstep Hchg.
  destruct HI as [_ _ _ (order & virt & _ & _ & Hholds)].
  destruct Hstep as [st st' th th' before after Hth]. simpl in *.
  destruct (in_cs (pc th)) eqn:Hin.
  - destruct (holds_taken_inv _ _ _ _ _ Hholds Hin) as (_ & _ & Hm & _).
    split; [exact Hm |].
    destruct (thread_step_inside _ _ _ _ Hth Hin) as [Hc | (_ & _ & _ & Hm' & _)];
      [| congruence].
    destruct (thread_step_release _ _ _ _ Hth Hin Hc) as (_ & -> & _).
    simpl in Hchg. intuition congruence.
  - exfalso. destruct (pc th) eqn:Hpc; try discriminate Hin.
    + destruct (thread_step_idle _ _ _ _ Hth Hpc) as (-> & _). intuition congruence.
    + destruct (thread_step_guard _ _ _ _ _ _ Hth Hpc) as (_ & _ & _ & Hw & _).
      rewrite Hw in Hchg. simpl in Hchg. intuition congruence.
Qed.

(** *** Counting terminators *)

Lemma newlines_app (a b : string) : newlines (a +:+ b) = (newlines a + newlines b)%nat.
Proof.
  induction a as [|c a IH]; [reflexivity |].
  rewrite app_cons_s. simpl. rewrite IH. lia.
Qed.

Lemma digit_not_newline (n : Z) : (nat_of_ascii (digit n) =? 10)%nat = false.
Proof.
  unfold digit.
  destruct (digit_cases n) as [H|[H|[H|[H|[H|[H|[H|[H|[H|H]]]]]]]]];
    rewrite H; reflexivity.
Qed.

Lemma newlines_dec_digits (fuel : nat) (n : Z) (acc : string) :
  newlines (dec_digits fuel n acc) = newlines acc.
Proof.
  revert n acc. induction fuel as [|fuel IH]; intros n acc; [reflexivity |].
  cbn [dec_digits]. destruct (n / 10 =? 0).
  - cbn [newlines]. now rewrite digit_not_newline.
  - rewrite IH. cbn [newlines]. now rewrite digit_not_newline.
Qed.

Lemma newlines_to_string (n : Z) : newlines (to_string n) = 0%nat.
Proof.
  unfold to_string. destruct (n <? 0).
  - rewrite newlines_app, newlines_dec_digits. reflexivity.
  - now rewrite newlines_dec_digits.
Qed.

Lemma newlines_fmt2 (n : Z) : newlines (fmt2 n) = 0%nat.
Proof.
  unfold fmt2. destruct ((0 <=? n) && (n <? 10)).
  - rewrite newlines_app, newlines_to_string. reflexivity.
  - apply newlines_to_string.
Qed.

(** Whatever the clock says, a timestamp stays on one line; so does an
    entry whose message does. *)
Lemma newlines_put_time (t : tm) : newlines (put_time t) = 0%nat.
Proof.
  unfold put_time. rewrite !newlines_app, newlines_to_string, !newlines_fmt2. reflexivity.
Qed.

Lemma newlines_build_entry (t : tm) (level : LogLevel) (message : string) :
  newlines (build_entry (put_time t) level message) = newlines message.
Proof.
  unfold build_entry. rewrite !newlines_app, newlines_put_time.
  destruct level; reflexivity.
Qed.

Lemma newlines_entries (minLevel : LogLevel) (src : nat -> tm) (k : nat)
  (calls : list (LogLevel * string)) :
  Forall (fun c => newlines c.2 = 0%nat) calls ->
  newlines (lines (entries_of minLevel src k calls))
    = length (entries_of minLevel src k calls).
Proof.
  intros H. revert k. induction H as [|[level message] rest Hc _ IH]; intros k;
    [reflexivity |].
  cbn [entries_of snd] in *. destruct (level_lt level minLevel); [apply IH |].
  cbn [lines fold_right length]. fold (lines (entries_of minLevel src (S k) rest)).
  rewrite !newlines_app, newlines_build_entry, Hc, IH. reflexivity.
Qed.

Lemma accepted_passes (minLevel : LogLevel) (acts : list Action) :
  Forall (fun c => level_lt c.1 minLevel = false) (accepted minLevel acts).
Proof.
  induction acts as [|[level message|ms] rest IH]; simpl; [constructor | | exact IH].
  destruct (level_lt level minLevel) eqn:Hlt; [exact IH | now constructor].
Qed.

Lemma entries_of_length (minLevel : LogLevel) (src : nat -> tm) (k : nat)
  (calls : list (LogLevel * string)) :
  Forall (fun c => level_lt c.1 minLevel = false) calls ->
  length (entries_of minLevel src k calls) = length calls.
Proof.
  intros H. revert k. induction H as [|[level message] rest Hlt _ IH]; intros k;
    [reflexivity |].
  simpl in *. rewrite Hlt. simpl. now rewrite IH.
Qed.

Lemma flat_map_length_const {A B} (f : A -> list B) (l : list A) (m : nat) :
  Forall (fun x => length (f x) = m) l ->
  length (flat_map f l) = (length l * m)%nat.
Proof.
  induction 1 as [|x l Hx _ IH]; [reflexivity |].
  simpl. rewrite length_app, Hx, IH. reflexivity.
Qed.

(** Claim C1.  [N] workers share one logger whose mutex is free at the
    start, and each makes [M] calls that pass the filter.  However they are
    scheduled: the run takes a bounded number of steps; at most one worker
    at a time is inside the guarded block of [log]; the clock is read and
    the sinks are written only by a worker that holds the mutex; the run
    can always be brought to the point where every worker is done; and at
    that point the console holds what it held before followed by exactly
    [N * M] entries, each whole and followed by its terminator, the file
    (when open) holds the same entries behind its former content, and the
    events are those of the calls made one after the other in some order:
    lock, clock, console, file, unlock, call after call.  When no message
    contains a line terminator, the text added to each sink has exactly
    [N * M] of them, one at the end of each entry. *)
Theorem C1_atomic_lines :
  forall (lg : Logger) (w : World) (progs : list (list Action)) (N M : nat),
    logMutex lg = false ->
    length progs = N ->
    Forall (fun p => length (accepted (minimumLevel lg) p) = M) progs ->
    let start := mk_Sys (lg, w) (spawn progs) in
    (forall n s, sys_steps_n n start s -> (n <= measure start)%nat) /\
    forall s : Sys,
      sys_steps start s ->
      (length (holders (threads s)) <= 1)%nat /\
      (forall s', sys_step s s' ->
         cout (shared s').2 <> cout (shared s).2 \/
         files (shared s').2 <> files (shared s).2 \/
         reads (shared s').2 <> reads (shared s).2 ->
         logMutex (shared s).1 = true /\ logMutex (shared s').1 = true) /\
      (exists s', sys_steps s s' /\ all_done s' = true) /\
      (all_done s = true ->
       exists (order : list (LogLevel * string)) (w' : World),
         Permutation order (flat_map (accepted (minimumLevel lg)) progs) /\
         shared s = (lg, w') /\
         log_all order (lg, w) = Some (tt, (lg, w')) /\
         let es := entries_of (minimumLevel lg) (time_src w) (reads w) order in
         length es = (N * M)%nat /\
         cout w' = cout w +:+ lines es /\
         (forall p, logfile lg = Some p ->
            file_content p (files w') = file_content p (files w) +:+ lines es) /\
         (logfile lg = None -> files w' = files w) /\
         trace w' = trace w ++ entries_events (logfile lg) es /\
         (Forall (fun c => newlines c.2 = 0%nat)
                 (flat_map (accepted (minimumLevel lg)) progs) ->
          newlines (lines es) = (N * M)%nat)).
Proof.
  intros lg w progs N M Hm HN HM start.
  split.
  { intros n s Hn. pose proof (sys_steps_n_bound _ _ _ Hn). lia. }
  intros s Hreach.
  pose proof (Inv_init (lg, w) progs Hm) as Hinit. simpl in Hinit.
  pose proof (Inv_steps _ _ _ _ Hinit Hreach) as HI.
  split; [exact (proj1 (Inv_exclusion _ _ _ HI)) |].
  split; [intros s'; apply (writes_under_mutex _ _ _ _ HI) |].
  split; [exact (Inv_completes _ _ _ HI) |].
  intros Hdone.
  destruct (Inv_done _ _ _ HI Hdone) as (order & Hperm & Hrun).
  destruct (log_all_effect order lg w Hm) as (w' & Hrun' & Hext).
  exists order, w'.
  split; [exact Hperm |].
  split; [congruence |].
  split; [exact Hrun' |].
  assert (Hlen : length (entries_of (minimumLevel lg) (time_src w) (reads w) order)
                 = (N * M)%nat).
  { rewrite entries_of_length.
    - rewrite (Permutation_length Hperm).
      rewrite (flat_map_length_const _ _ M HM). now rewrite HN.
    - eapply Permutation_Forall; [symmetry; exact Hperm |].
      apply Forall_flat_map. apply Forall_forall. intros p _. apply accepted_passes. }
  split; [exact Hlen |].
  split; [exact (ext_cout _ _ _ _ Hext) |].
  split; [exact (ext_file _ _ _ _ Hext) |].
  split; [intros Hc; exact (extends_files_closed _ _ _ _ Hc Hext) |].
  split; [exact (ext_trace _ _ _ _ Hext) |].
  intros Hnl. rewrite newlines_entries; [exact Hlen |].
  eapply Permutation_Forall; [symmetry; exact Hperm | exact Hnl].
Qed.

Lemma C1_atomic_lines_witness :
  exists es : list string,
    length es = 4%nat /\
    cout (shared (run_sched sample_sched
                    (mk_Sys (sample_logger, sample_world) (spawn sample_progs)))).2
      = lines es.
Proof.
  assert (HM : Forall (fun p => length (accepted (minimumLevel sample_logger) p) = 2%nat)
                 sample_progs) by (repeat constructor).
  destruct (C1_atomic_lines sample_logger sample_world sample_progs 2 2
              eq_refl eq_refl HM) as [_ Hall].
  destruct (Hall _ (run_sched_steps sample_sched _)) as (_ & _ & _ & Hdone).
  destruct (Hdone eq_refl) as (order & w' & _ & Hs & _ & Hlen & Hcout & _).
  exists (entries_of (minimumLevel sample_logger) (time_src sample_world)
            (reads sample_world) order).
  split; [exact Hlen |].
  rewrite Hs. exact Hcout.
Defined.

(** ** The two operating states *)

Lemma log_logger (level : LogLevel) (message : string) (st st' : St) :
  log level message st = Some (tt, st') -> st'.1 = st.1.
Proof.
  destruct st as [lg w]. intros H.
  destruct (level_lt level (minimumLevel lg)) eqn:Hlt.
  - rewrite log_filtered in H by exact Hlt. now injection H as <-.
  - destruct (logMutex lg) eqn:Hm.
    + rewrite log_blocked in H by assumption. discriminate H.
    + rewrite log_accepted in H by assumption. now injection H as <-.
Qed.

Lemma log_all_logger (calls : list (LogLevel * string)) (st st' : St) :
  log_all calls st = Some (tt, st') -> st'.1 = st.1.
Proof.
  revert st. induction calls as [|[level message] rest IH]; intros st H.
  - now injection H as <-.
  - simpl in H. unfold bind in H.
    destruct (log level message st) as [[[] st1]|] eqn:Hlog; [| discriminate H].
    rewrite (IH _ H). now apply log_logger in Hlog.
Qed.

Lemma sys_steps_logger (s s' : Sys) :
  sys_steps s s' ->
  logfile (shared s').1 = logfile (shared s).1 /\
  minimumLevel (shared s').1 = minimumLevel (shared s).1.
Proof.
  induction 1 as [|s1 s2 s3 _ [IH1 IH2] Hstep]; [auto |].
  destruct Hstep as [st st' th th' before after Hth]. simpl in *.
  destruct (thread_step_logger _ _ _ _ Hth). split; congruence.
Qed.

(** Claim C6.  A logger is in one of two states, file open or file
    unavailable, and never both.  Which one is settled by the constructor
    (open exactly when the path could be opened), which also sets the
    threshold.  No call of [log], no sequence of calls, and no step of any
    number of callers running side by side changes the file handle or the
    threshold. *)
Theorem C6_mode_fixed :
  (forall lg, (mode lg = FileOpen /\ is_Some (logfile lg)) \/
              (mode lg = FileUnavailable /\ logfile lg = None)) /\
  FileOpen <> FileUnavailable /\
  (forall filename minLevel w,
     let st := Logger_new filename minLevel w in
     mode st.1 = (if openable w (default "app.log" filename)
                  then FileOpen else FileUnavailable) /\
     minimumLevel st.1 = default INFO minLevel) /\
  (forall level message st st',
     log level message st = Some (tt, st') ->
     logfile st'.1 = logfile st.1 /\ minimumLevel st'.1 = minimumLevel st.1) /\
  (forall calls st st',
     log_all calls st = Some (tt, st') ->
     logfile st'.1 = logfile st.1 /\ minimumLevel st'.1 = minimumLevel st.1) /\
  (forall s s',
     sys_steps s s' ->
     logfile (shared s').1 = logfile (shared s).1 /\
     minimumLevel (shared s').1 = minimumLevel (shared s).1).
Proof.
  split.
  { intros lg. unfold mode. destruct (logfile lg); [left | right]; eauto. }
  split; [discriminate |].
  split.
  { intros filename minLevel w st. subst st.
    destruct (openable w (default "app.log" filename)) eqn:Hopen.
    - now rewrite Logger_new_open.
    - now rewrite Logger_new_fail. }
  split.
  { intros level message st st' H. now rewrite (log_logger _ _ _ _ H). }
  split.
  { intros calls st st' H. now rewrite (log_all_logger _ _ _ H). }
  exact sys_steps_logger.
Qed.

Lemma C6_mode_fixed_witness :
  logfile (shared (run_sched sample_sched
                     (mk_Sys (sample_logger, sample_world) (spawn sample_progs)))).1
    = Some "a.log" /\
  minimumLevel (shared (run_sched sample_sched
                          (mk_Sys (sample_logger, sample_world) (spawn sample_progs)))).1
    = DEBUG.
Proof.
  exact (proj2 (proj2 (proj2 (proj2 (proj2 C6_mode_fixed))))
           (mk_Sys (sample_logger, sample_world) (spawn sample_progs))
           (run_sched sample_sched
              (mk_Sys (sample_logger, sample_world) (spawn sample_progs)))
           (run_sched_steps sample_sched
              (mk_Sys (sample_logger, sample_world) (spawn sample_progs)))).
Defined.

(** ** The driver *)

(** *** The process environment plays no part *)

Section Environment.

Variable e : gmap string string.

(** A step that goes through as it is in the other environment. *)
Ltac same_step := let H := fresh "H" in intros H; injection H as <- <-; reflexivity.

Lemma thread_step_env (st st' : St) (th th' : Thread) :
  thread_step st th = Some (st', th') ->
  thread_step (St_env e st) th = Some (St_env e st', th').
Proof.
  unfold thread_step. destruct st as [lg w]. simpl.
  destruct (pc th); simpl.
  - destruct (prog th) as [|[level message|ms] rest]; [discriminate | |].
    + destruct (level_lt level (minimumLevel lg)); same_step.
    + same_step.
  - unfold mutex_lock. simpl. destruct (logMutex lg); [discriminate |].
    same_step.
  - same_step.
  - same_step.
  - same_step.
  - destruct (bool_decide (is_Some (logfile lg))); same_step.
  - unfold logfile_write. simpl.
    destruct (logfile lg); same_step.
  - unfold logfile_write. simpl.
    destruct (logfile lg); same_step.
  - same_step.
Qed.

Lemma sys_steps_env (s s' : Sys) :
  sys_steps s s' -> sys_steps (Sys_env e s) (Sys_env e s').
Proof.
  induction 1 as [|s1 s2 s3 _ IH Hstep]; [apply sys_steps_refl |].
  eapply sys_steps_step; [exact IH |].
  destruct Hstep as [st st' th th' before after Hth]. unfold Sys_env. simpl.
  constructor. now apply thread_step_env.
Qed.

Lemma log_env (level : LogLevel) (message : string) (st : St) :
  log level message (St_env e st) = result_env e (log level message st).
Proof.
  destruct st as [lg w]. unfold St_env. simpl.
  destruct (level_lt level (minimumLevel lg)) eqn:Hlt.
  - rewrite !log_filtered by exact Hlt. reflexivity.
  - destruct (logMutex lg) eqn:Hm.
    + rewrite !log_blocked by assumption. reflexivity.
    + rewrite !log_accepted by assumption. reflexivity.
Qed.

Lemma log_all_env (calls : list (LogLevel * string)) (st : St) :
  log_all calls (St_env e st) = result_env e (log_all calls st).
Proof.
  revert st. induction calls as [|[level message] rest IH]; intros st; [reflexivity |].
  simpl. unfold bind. rewrite log_env.
  destruct (log level message st) as [[[] st1]|]; [apply IH | reflexivity].
Qed.

Lemma Logger_new_env (filename : option string) (minLevel : option LogLevel) (w : World) :
  Logger_new filename minLevel (with_env e w) = St_env e (Logger_new filename minLevel w).
Proof.
  unfold Logger_new, logfile_open. simpl.
  destruct (openable w (default "app.log" filename)); reflexivity.
Qed.

Lemma Logger_delete_env (st : St) :
  Logger_delete (St_env e st) = result_env e (Logger_delete st).
Proof.
  destruct st as [[lf ml mx] w]. unfold Logger_delete, bind, is_open, lift, ret, logfile_close.
  destruct lf; reflexivity.
Qed.

End Environment.

(** *** The three stretches of [main] *)

Lemma main_first_log_all (logFilename : string) (st : St) :
  (SingleThreadLogging logFilename ;; info "----- IN MULTI THREAD LOGIC -----") st =
  log_all (main_first_calls logFilename) st.
Proof.
  unfold SingleThreadLogging, main_first_calls, info, debug, warning, error, critical.
  simpl. unfold bind, ret.
  repeat match goal with
         | |- context [log ?l ?m ?s] =>
             destruct (log l m s) as [[[] ?]|]; try reflexivity
         end.
Qed.

Lemma Logger_delete_effect (lg : Logger) (w : World) :
  Logger_delete (lg, w) =
  Some (tt, match logfile lg with
            | Some p => (mk_Logger None (minimumLevel lg) (logMutex lg), emit (EvClose p) w)
            | None => (lg, w)
            end).
Proof.
  destruct lg as [lf ml mx]. unfold Logger_delete, bind, is_open, lift, ret, logfile_close.
  destruct lf; reflexivity.
Qed.

Lemma main_workers_calls :
  Forall (fun p => length (accepted DEBUG p) = 10%nat) main_workers.
Proof. repeat constructor. Qed.

Lemma Logger_new_facts (filename : option string) (minLevel : option LogLevel) (w : World) :
  let path := default "app.log" filename in
  let st := Logger_new filename minLevel w in
  logMutex st.1 = false /\ minimumLevel st.1 = default INFO minLevel /\
  logfile st.1 = (if openable w path then Some path else None) /\
  cout st.2 = cout w /\ environ st.2 = environ w /\
  trace st.2 = trace w ++ open_events path (openable w path).
Proof.
  intros path st. subst st. destruct (openable w path) eqn:Hopen.
  - rewrite (Logger_new_open _ _ _ Hopen). repeat split.
  - rewrite (Logger_new_fail _ _ _ Hopen). repeat split.
Qed.

(** From a fresh logger with threshold DEBUG, the body of [main] can run to
    its end. *)
Lemma main_body_runs (logFilename : string) (lg0 : Logger) (w0 : World) :
  logMutex lg0 = false ->
  exists st1 joined st3,
    (SingleThreadLogging logFilename ;; info "----- IN MULTI THREAD LOGIC -----") (lg0, w0)
      = Some (tt, st1) /\
    sys_steps (mk_Sys st1 (spawn main_workers)) joined /\
    all_done joined = true /\
    (info "------ ALL THREADS ARE COMPLETED ------" ;; Logger_delete) (shared joined)
      = Some (tt, st3).
Proof.
  intros Hm.
  destruct (log_all_effect (main_first_calls logFilename) lg0 w0 Hm) as (w1 & Hr1 & _).
  pose proof (Inv_init (lg0, w1) main_workers Hm) as HI.
  destruct (Inv_completes _ _ _ HI) as (joined & Hsteps & Hdone).
  destruct (Inv_done _ _ _ (Inv_steps _ _ _ _ HI Hsteps) Hdone) as (order & _ & Hr2).
  destruct (log_all_effect order lg0 w1 Hm) as (w2 & Hr2' & _).
  assert (Hj : shared joined = (lg0, w2)) by congruence.
  destruct (log_all_effect [(INFO, "------ ALL THREADS ARE COMPLETED ------")] lg0 w2 Hm)
    as (w3 & Hr3 & _).
  simpl in Hr3. unfold bind in Hr3.
  destruct (log INFO "------ ALL THREADS ARE COMPLETED ------" (lg0, w2))
    as [[[] st']|] eqn:Hlog; [| discriminate Hr3].
  injection Hr3 as ->.
  eexists (lg0, w1), joined, _.
  split; [rewrite main_first_log_all; exact Hr1 |].
  split; [exact Hsteps |]. split; [exact Hdone |].
  rewrite Hj. unfold bind, info. rewrite Hlog. apply Logger_delete_effect.
Qed.

(** And whichever way it ran, it put out eight entries of its own, then
    the fifty of the workers, then one more, and only then closed the
    file. *)
Lemma main_body_effect (logFilename : string) (lg0 : Logger) (w0 : World)
  (st1 st3 : St) (joined : Sys) :
  logMutex lg0 = false -> minimumLevel lg0 = DEBUG ->
  (SingleThreadLogging logFilename ;; info "----- IN MULTI THREAD LOGIC -----") (lg0, w0)
    = Some (tt, st1) ->
  sys_steps (mk_Sys st1 (spawn main_workers)) joined ->
  all_done joined = true ->
  (info "------ ALL THREADS ARE COMPLETED ------" ;; Logger_delete) (shared joined)
    = Some (tt, st3) ->
  exists (es1 es2 : list string) (e3 : string) (w3 : World),
    length es1 = 8%nat /\ length es2 = 50%nat /\
    extends lg0 w0 (es1 ++ es2 ++ [e3]) w3 /\
    st3.2 = match logfile lg0 with
            | Some p => emit (EvClose p) w3
            | None => w3
            end.
Proof.
  intros Hm Hmin H1 Hsteps Hdone H3.
  rewrite main_first_log_all in H1.
  destruct (log_all_effect (main_first_calls logFilename) lg0 w0 Hm) as (w1 & Hr1 & Hext1).
  assert (st1 = (lg0, w1)) as -> by congruence.
  pose proof (Inv_init (lg0, w1) main_workers Hm) as HI.
  destruct (Inv_done _ _ _ (Inv_steps _ _ _ _ HI Hsteps) Hdone) as (order & Hperm & Hr2).
  cbn [fst] in Hperm.
  destruct (log_all_effect order lg0 w1 Hm) as (w2 & Hr2' & Hext2).
  assert (Hj : shared joined = (lg0, w2)) by congruence.
  rewrite Hj in H3. unfold bind, info in H3.
  assert (Hlt : level_lt INFO (minimumLevel lg0) = false) by (rewrite Hmin; reflexivity).
  rewrite (log_accepted _ _ _ _ Hlt Hm), Logger_delete_effect in H3.
  injection H3 as <-.
  eexists _, _, _, (log_world INFO "------ ALL THREADS ARE COMPLETED ------" lg0 w2).
  split; [| split; [| split]].
  3: { eapply extends_app; [exact Hext1 |].
       eapply extends_app; [exact Hext2 | apply extends_log]. }
  - rewrite entries_of_length; [reflexivity |].
    rewrite Hmin. repeat constructor.
  - rewrite entries_of_length.
    + rewrite (Permutation_length Hperm), Hmin.
      now rewrite (flat_map_length_const _ _ 10%nat main_workers_calls).
    + eapply Permutation_Forall; [symmetry; exact Hperm |].
      apply Forall_flat_map. apply Forall_forall. intros p _. apply accepted_passes.
  - destruct (logfile lg0); reflexivity.
Qed.

Lemma main_run_env (e : gmap string string) (argv : list string) (w w' : World) (rc : Z) :
  main_run argv w w' rc -> main_run argv (with_env e w) (with_env e w') rc.
Proof.
  intros [st1 st3 joined H1 Hsteps Hdone H3].
  change (with_env e st3.2) with (St_env e st3).2.
  apply (main_run_intro argv (with_env e w) (St_env e st1) (St_env e st3) (Sys_env e joined)).
  - rewrite Logger_new_env, main_first_log_all, log_all_env, <- main_first_log_all, H1.
    reflexivity.
  - exact (sys_steps_env e _ _ Hsteps).
  - exact Hdone.
  - unfold bind, info in *. simpl. rewrite log_env.
    destruct (log INFO _ (shared joined)) as [[[] st2]|]; [| discriminate H3].
    simpl. rewrite Logger_delete_env, H3. reflexivity.
Qed.

(** Claim C9.  The driver takes its log file path from the first argument
    after the program name when there is one (further arguments are not
    looked at) and uses [myLogs.txt] otherwise.  It starts five workers on
    the one logger it built.  From any world it has a run, and every run
    returns 0, is the same run under any other process environment (which
    it also leaves as it found it) given the same answers from the clock,
    and leaves in the trace the opening of
    the file, then fifty-nine whole entries (eight of its own, the fifty of
    the workers, one more after the joins), and only after all of them the
    closing of the file. *)
Theorem C9_driver :
  main_logFilename [] = "myLogs.txt" /\
  (forall prog, main_logFilename [prog] = "myLogs.txt") /\
  (forall prog path rest, main_logFilename (prog :: path :: rest) = path) /\
  (length (spawn main_workers) = Z.to_nat numThreads /\ numThreads = 5) /\
  forall (argv : list string) (w : World),
    (exists w', main_run argv w w' 0) /\
    forall (w' : World) (rc : Z),
      main_run argv w w' rc ->
      let path := main_logFilename argv in
      let ok := openable w path in
      rc = 0 /\
      (forall e, main_run argv (with_env e w) (with_env e w') rc) /\
      environ w' = environ w /\
      exists (es1 es2 : list string) (e3 : string),
        length es1 = 8%nat /\ length es2 = 50%nat /\
        cout w' = cout w +:+ lines (es1 ++ es2 ++ [e3]) /\
        trace w' = trace w ++ open_events path ok ++
                   entries_events (if ok then Some path else None) (es1 ++ es2 ++ [e3]) ++
                   close_events path ok.
Proof.
  split; [reflexivity |]. split; [reflexivity |].
  split.
  { intros prog0 path rest. unfold main_logFilename.
    assert ((1 <? Z.of_nat (length (prog0 :: path :: rest))) = true) as ->
      by (apply Z.ltb_lt; simpl length; lia).
    reflexivity. }
  split; [split; reflexivity |].
  intros argv w.
  destruct (Logger_new_facts (Some (main_logFilename argv)) (Some DEBUG) w)
    as (Hm & Hmin & Hlf & Hcout & Henv & Htrace).
  simpl in Hm, Hmin, Hlf, Hcout, Henv, Htrace.
  destruct (Logger_new (Some (main_logFilename argv)) (Some DEBUG) w) as [lg0 w0] eqn:Hnew.
  simpl in Hm, Hmin, Hlf, Hcout, Henv, Htrace.
  split.
  - destruct (main_body_runs (main_logFilename argv) lg0 w0 Hm)
      as (st1 & joined & st3 & H1 & Hsteps & Hdone & H3).
    exists st3.2. apply (main_run_intro argv w st1 st3 joined); [| assumption..].
    rewrite Hnew. exact H1.
  - intros w' rc Hrun path ok.
    split; [destruct Hrun; reflexivity |].
    split; [intros e; now apply main_run_env |].
    destruct Hrun as [st1 st3 joined H1 Hsteps Hdone H3].
    rewrite Hnew in H1.
    destruct (main_body_effect _ _ _ _ _ _ Hm Hmin H1 Hsteps Hdone H3)
      as (es1 & es2 & e3 & w3 & Hl1 & Hl2 & Hext & Hw').
    assert (Hfin : cout st3.2 = cout w3 /\ environ st3.2 = environ w3 /\
                   trace st3.2 = trace w3 ++ close_events path ok).
    { rewrite Hw', Hlf. fold path. fold ok. destruct ok; simpl;
        rewrite ?app_nil_r; repeat split. }
    destruct Hfin as (Hc3 & He3 & Ht3).
    split.
    { rewrite He3, (ext_environ _ _ _ _ Hext). exact Henv. }
    exists es1, es2, e3. split; [exact Hl1 |]. split; [exact Hl2 |]. split.
    + rewrite Hc3, (ext_cout _ _ _ _ Hext), Hcout. reflexivity.
    + rewrite Ht3, (ext_trace _ _ _ _ Hext), Htrace, Hlf. fold path. fold ok.
      now rewrite <- !(assoc_L (++)).
Qed.

Lemma C9_driver_witness :
  exists w' : World,
    main_run ["logger"; "run.log"] sample_world w' 0 /\
    exists es : list string,
      length es = 59%nat /\ cout w' = lines es /\
      trace w' = [EvOpen "run.log" true] ++ entries_events (Some "run.log") es ++
                 [EvClose "run.log"].
Proof.
  destruct (proj2 (proj2 (proj2 (proj2 C9_driver))) ["logger"; "run.log"] sample_world)
    as [[w' Hrun] Hall].
  exists w'. split; [exact Hrun |].
  destruct (Hall w' 0 Hrun) as (_ & _ & _ & es1 & es2 & e3 & Hl1 & Hl2 & Hcout & Htrace).
  exists (es1 ++ es2 ++ [e3]).
  split; [rewrite !length_app, Hl1, Hl2; reflexivity |].
  split; [exact Hcout | exact Htrace].
Defined.

(** * Further properties *)

(** ** The destructor *)

(** X1.  The destructor always returns, whatever state the logger is in
    (file open or not, calls made or not).  It leaves the logger closed and
    everything else as it was: threshold, mutex, console, error stream, the
    content of every file, the clock.  It records the closing of the file
    exactly when the file was open, and running it again changes nothing. *)
Theorem X1_destructor_safe :
  forall (lg : Logger) (w : World),
    exists (lg' : Logger) (w' : World),
      Logger_delete (lg, w) = Some (tt, (lg', w')) /\
      logfile lg' = None /\
      minimumLevel lg' = minimumLevel lg /\ logMutex lg' = logMutex lg /\
      cout w' = cout w /\ cerr w' = cerr w /\ files w' = files w /\
      reads w' = reads w /\
      trace w' = trace w ++ match logfile lg with
                            | Some p => [EvClose p]
                            | None => []
                            end /\
      Logger_delete (lg', w') = Some (tt, (lg', w')).
Proof.
  intros [lf ml mx] w. rewrite Logger_delete_effect. simpl.
  destruct lf as [p|].
  - eexists _, _. split; [reflexivity |]. simpl. repeat split.
  - eexists _, _. split; [reflexivity |]. simpl. rewrite app_nil_r. repeat split.
Qed.

(** ** The constructor *)

(** X2.  The constructor never writes to the console and never reads the
    clock; it leaves the mutex free.  The error stream changes exactly when
    the file could not be opened, and the file handle is open exactly when
    it could.  No other file is touched, a file that existed keeps its
    content whether or not the open succeeds, and a failed open leaves the
    whole disk as it was. *)
Theorem X2_constructor_effects :
  forall (filename : option string) (minLevel : option LogLevel) (w : World),
    let path := default "app.log" filename in
    let st := Logger_new filename minLevel w in
    cout st.2 = cout w /\ reads st.2 = reads w /\ logMutex st.1 = false /\
    (cerr st.2 <> cerr w <-> openable w path = false) /\
    (logfile st.1 = Some path <-> openable w path = true) /\
    (logfile st.1 = None <-> openable w path = false) /\
    (forall q, q <> path -> files st.2 !! q = files w !! q) /\
    (forall c, files w !! path = Some c -> files st.2 !! path = Some c) /\
    (openable w path = false -> files st.2 = files w).
Proof.
  intros filename minLevel w path st. subst st.
  destruct (openable w path) eqn:Hopen.
  - rewrite (Logger_new_open _ _ _ Hopen). fold path. simpl.
    repeat split; try congruence; try discriminate.
    + intros q Hq. apply file_append_lookup_ne. congruence.
    + intros c Hc. rewrite file_append_empty_content. unfold file_content.
      now rewrite Hc.
  - rewrite (Logger_new_fail _ _ _ Hopen). fold path. simpl.
    repeat split; try congruence; try discriminate.
    intros _ Heq. apply app_eq_self_inv in Heq. discriminate Heq.
Qed.

Lemma X2_constructor_effects_witness :
  files (Logger_new (Some "a.log") None sample_world_old).2 !! "a.log"
    = Some ("old line" +:+ endl) /\
  files (Logger_new (Some "/no/such/dir/app.log") None sample_world_old).2
    = files sample_world_old.
Proof.
  split.
  - apply (proj1 (proj2 (proj2 (proj2 (proj2 (proj2 (proj2 (proj2
             (X2_constructor_effects (Some "a.log") None sample_world_old))))))))).
    reflexivity.
  - apply (proj2 (proj2 (proj2 (proj2 (proj2 (proj2 (proj2 (proj2
             (X2_constructor_effects (Some "/no/such/dir/app.log") None
                sample_world_old))))))))).
    reflexivity.
Defined.

(** ** [SingleThreadLogging] *)

Lemma SingleThreadLogging_log_all (logFilename : string) (st : St) :
  SingleThreadLogging logFilename st =
  log_all [(INFO, "----- IN SINGLE THREAD LOGIC ------");
           (DEBUG, "This is debug message");
           (INFO, "Application started and logfile name is : " +:+ logFilename);
           (WARNING, "Low memory condition detected");
           (ERROR, "Failed some where");
           (CRITICAL, "Crash detected");
           (INFO, "----- END SINGLE THREAD LOGIC ------")] st.
Proof.
  unfold SingleThreadLogging, info, debug, warning, error, critical.
  simpl. unfold bind, ret.
  repeat match goal with
         | |- context [log ?l ?m ?s] =>
             destruct (log l m s) as [[[] ?]|]; try reflexivity
         end.
Qed.

Lemma In_entries_of (minLevel : LogLevel) (src : nat -> tm) (k0 : nat)
  (calls : list (LogLevel * string)) (level : LogLevel) (message : string) :
  In (level, message) calls -> level_lt level minLevel = false ->
  exists k, In (build_entry (put_time (src k)) level message)
               (entries_of minLevel src k0 calls).
Proof.
  intros Hin Hlt. revert k0. induction calls as [|[l m] rest IH]; intros k0; [destruct Hin |].
  cbn [entries_of]. destruct Hin as [Heq | Hin].
  - injection Heq as -> ->. rewrite Hlt. exists k0. left. reflexivity.
  - destruct (level_lt l minLevel).
    + apply IH, Hin.
    + destruct (IH Hin (S k0)) as [k Hk]. exists k. right. exact Hk.
Qed.

(** X3.  On a logger whose mutex is free, [SingleThreadLogging] returns and
    leaves the logger as it was.  Of its seven calls, 7, 6, 3, 2 or 1 pass
    the filter as the threshold goes from DEBUG to CRITICAL; exactly that
    many entries are added, the same ones to the console and to the open
    file, that many clock readings are consumed, and the CRITICAL entry is
    always among them. *)
Theorem X3_single_thread_logging :
  forall (logFilename : string) (lg : Logger) (w : World),
    logMutex lg = false ->
    exists (w' : World) (es : list string),
      SingleThreadLogging logFilename (lg, w) = Some (tt, (lg, w')) /\
      length es = single_thread_entries (minimumLevel lg) /\
      cout w' = cout w +:+ lines es /\
      (forall p, logfile lg = Some p ->
         file_content p (files w') = file_content p (files w) +:+ lines es) /\
      (logfile lg = None -> files w' = files w) /\
      cerr w' = cerr w /\
      reads w' = (reads w + single_thread_entries (minimumLevel lg))%nat /\
      exists k, In (build_entry (put_time (time_src w k)) CRITICAL "Crash detected") es.
Proof.
  intros logFilename lg w Hm. rewrite SingleThreadLogging_log_all.
  match goal with |- context [log_all ?c _] => set (calls := c) end.
  destruct (log_all_effect calls lg w Hm) as (w' & Hrun & Hext).
  exists w', (entries_of (minimumLevel lg) (time_src w) (reads w) calls).
  assert (Hlen : length (entries_of (minimumLevel lg) (time_src w) (reads w) calls)
                 = single_thread_entries (minimumLevel lg)).
  { subst calls. destruct (minimumLevel lg); reflexivity. }
  split; [exact Hrun |]. split; [exact Hlen |].
  split; [exact (ext_cout _ _ _ _ Hext) |].
  split; [exact (ext_file _ _ _ _ Hext) |].
  split; [intros Hc; exact (extends_files_closed _ _ _ _ Hc Hext) |].
  split; [exact (ext_cerr _ _ _ _ Hext) |].
  split; [rewrite (ext_reads _ _ _ _ Hext), Hlen; reflexivity |].
  apply In_entries_of.
  - subst calls. simpl. auto 10.
  - destruct (minimumLevel lg); reflexivity.
Qed.

Lemma X3_single_thread_logging_witness :
  exists (w' : World) (es : list string),
    SingleThreadLogging "a.log" (mk_Logger (Some "a.log") WARNING false, sample_world)
      = Some (tt, (mk_Logger (Some "a.log") WARNING false, w')) /\
    length es = 3%nat /\ cout w' = lines es.
Proof.
  destruct (X3_single_thread_logging "a.log" (mk_Logger (Some "a.log") WARNING false)
              sample_world eq_refl) as (w' & es & Hrun & Hlen & Hcout & _).
  exists w', es. split; [exact Hrun |]. split; [exact Hlen | exact Hcout].
Defined.

(** ** What callers side by side never do *)

(** Closes a field of [grows] that the step at hand leaves alone. *)
Ltac grows_same :=
  first [ reflexivity
        | lia
        | exists ""; now rewrite app_nil_r_s
        | intros ? _; exists ""; now rewrite app_nil_r_s ].

Lemma grows_refl (lf : option string) (w : World) : grows lf w w.
Proof. split; grows_same. Qed.

Lemma grows_trans (lf : option string) (w1 w2 w3 : World) :
  grows lf w1 w2 -> grows lf w2 w3 -> grows lf w1 w3.
Proof.
  intros [[a Ha] Hc Hf Ho Hr Ht Hop He] [[a' Ha'] Hc' Hf' Ho' Hr' Ht' Hop' He'].
  split; try congruence; try lia.
  - exists (a +:+ a'). rewrite Ha', Ha. apply app_assoc_s.
  - intros p Hp. destruct (Hf p Hp) as [b Hb]. destruct (Hf' p Hp) as [b' Hb'].
    exists (b +:+ b'). rewrite Hb', Hb. apply app_assoc_s.
  - intros q Hq. rewrite Ho', Ho; auto.
Qed.

Lemma grows_cout_write (lf : option string) (s : string) (st : St) :
  grows lf st.2 (cout_write s st).2.
Proof.
  split; simpl; try grows_same.
  exists s. reflexivity.
Qed.

Lemma grows_logfile_write (s : string) (st : St) :
  grows (logfile st.1) st.2 (logfile_write s st).2.
Proof.
  unfold logfile_write. destruct (logfile st.1) as [path|] eqn:Hlf; [| apply grows_refl].
  split; simpl; try grows_same.
  - intros p Hp. injection Hp as <-. exists s. apply file_append_content.
  - intros q Hq. apply file_append_lookup_ne. congruence.
Qed.

Lemma grows_emit (lf : option string) (e : Event) (w : World) : grows lf w (emit e w).
Proof. split; simpl; grows_same. Qed.

Lemma thread_step_grows (st st' : St) (th th' : Thread) :
  thread_step st th = Some (st', th') -> grows (logfile st.1) st.2 st'.2.
Proof.
  unfold thread_step. intros H. destruct (pc th).
  - destruct (prog th) as [|[level message|ms] rest]; [discriminate | |].
    + destruct (level_lt level (minimumLevel st.1)); injection H as <- <-; apply grows_refl.
    + injection H as <- <-. apply grows_refl.
  - unfold mutex_lock in H. destruct (logMutex st.1); [discriminate |].
    injection H as <- <-. apply grows_emit.
  - unfold clock_read in H. injection H as <- <-. split; simpl; grows_same.
  - injection H as <- <-. apply grows_cout_write.
  - injection H as <- <-. apply grows_cout_write.
  - destruct (bool_decide (is_Some (logfile st.1))); injection H as <- <-; apply grows_refl.
  - injection H as <- <-. apply grows_logfile_write.
  - injection H as <- <-. apply grows_logfile_write.
  - injection H as <- <-. apply grows_emit.
Qed.

Lemma sys_steps_grows (s s' : Sys) :
  sys_steps s s' -> grows (logfile (shared s).1) (shared s).2 (shared s').2.
Proof.
  induction 1 as [|s1 s2 s3 Hsteps IH Hstep]; [apply grows_refl |].
  eapply grows_trans; [exact IH |].
  destruct (sys_steps_logger _ _ Hsteps) as [Hlf _]. rewrite <- Hlf.
  destruct Hstep as [st st' th th' before after Hth]. simpl.
  exact (thread_step_grows _ _ _ _ Hth).
Qed.

(** X4.  However many callers run side by side and whatever they are in
    the middle of, what was already written stays: between any two states
    of a run the console and the log file only get text added at their end.
    Logging never writes to the error stream, never touches another file,
    never turns the clock back, and leaves the process environment
    alone. *)
Theorem X4_sinks_only_grow :
  forall s s' : Sys,
    sys_steps s s' ->
    (exists added, cout (shared s').2 = cout (shared s).2 +:+ added) /\
    cerr (shared s').2 = cerr (shared s).2 /\
    (forall p, logfile (shared s).1 = Some p ->
       exists added,
         file_content p (files (shared s').2)
           = file_content p (files (shared s).2) +:+ added) /\
    (forall q, logfile (shared s).1 <> Some q ->
       files (shared s').2 !! q = files (shared s).2 !! q) /\
    (reads (shared s).2 <= reads (shared s').2)%nat /\
    environ (shared s').2 = environ (shared s).2.
Proof.
  intros s s' Hsteps. destruct (sys_steps_grows _ _ Hsteps).
  repeat split; assumption.
Qed.

Lemma X4_sinks_only_grow_witness :
  cerr (shared (run_sched [0; 1; 0; 1; 0; 1; 0]%nat
                  (mk_Sys (sample_logger, sample_world) (spawn sample_progs)))).2 = "".
Proof.
  exact (proj1 (proj2 (X4_sinks_only_grow
           (mk_Sys (sample_logger, sample_world) (spawn sample_progs))
           (run_sched [0; 1; 0; 1; 0; 1; 0]%nat
              (mk_Sys (sample_logger, sample_world) (spawn sample_progs)))
           (run_sched_steps _ _)))).
Defined.

(** X5.  Whenever the mutex is free during a run, nothing is half
    written: logger and world are exactly what some of the accepted calls,
    made one after the other by a single caller, leave behind; so the
    console and the open file hold their former content followed by whole
    entries only, the same ones in both, and the calls not yet carried out
    are the remaining ones. *)
Theorem X5_whole_entries_when_free :
  forall (lg : Logger) (w : World) (progs : list (list Action)) (s : Sys),
    logMutex lg = false ->
    sys_steps (mk_Sys (lg, w) (spawn progs)) s ->
    logMutex (shared s).1 = false ->
    exists (order : list (LogLevel * string)) (w' : World),
      shared s = (lg, w') /\
      log_all order (lg, w) = Some (tt, (lg, w')) /\
      Permutation (order ++ flat_map (pending (minimumLevel lg)) (threads s))
                  (flat_map (accepted (minimumLevel lg)) progs) /\
      let es := entries_of (minimumLevel lg) (time_src w) (reads w) order in
      length es = length order /\
      cout w' = cout w +:+ lines es /\
      (forall p, logfile lg = Some p ->
         file_content p (files w') = file_content p (files w) +:+ lines es) /\
      trace w' = trace w ++ entries_events (logfile lg) es.
Proof.
  intros lg w progs s Hm Hreach Hfree.
  pose proof (Inv_init (lg, w) progs Hm) as Hinit. simpl in Hinit.
  destruct (Inv_steps _ _ _ _ Hinit Hreach)
    as [_ _ _ (order & virt & Hrun & Hperm & Hholds)]. simpl in Hperm.
  destruct (holds_free_inv _ _ _ Hholds Hfree) as [_ ->].
  destruct (log_all_effect order lg w Hm) as (w' & Hrun' & Hext).
  exists order, w'.
  split; [congruence |]. split; [exact Hrun' |]. split; [exact Hperm |].
  split.
  { apply entries_of_length.
    apply (Forall_app (fun c => level_lt c.1 (minimumLevel lg) = false) order
             (flat_map (pending (minimumLevel lg)) (threads s))).
    eapply Permutation_Forall; [symmetry; exact Hperm |].
    apply Forall_flat_map. apply Forall_forall. intros p _. apply accepted_passes. }
  split; [exact (ext_cout _ _ _ _ Hext) |].
  split; [exact (ext_file _ _ _ _ Hext) | exact (ext_trace _ _ _ _ Hext)].
Qed.

Lemma X5_whole_entries_when_free_witness :
  exists es : list string,
    cout (shared (run_sched (repeat 0%nat 9 ++ [1]%nat)
                    (mk_Sys (sample_logger, sample_world) (spawn sample_progs)))).2
      = lines es.
Proof.
  destruct (X5_whole_entries_when_free sample_logger sample_world sample_progs
              (run_sched (repeat 0%nat 9 ++ [1]%nat)
                 (mk_Sys (sample_logger, sample_world) (spawn sample_progs)))
              eq_refl (run_sched_steps _ _) eq_refl)
    as (order & w' & Hs & _ & _ & _ & Hcout & _).
  exists (entries_of (minimumLevel sample_logger) (time_src sample_world)
            (reads sample_world) order).
  rewrite Hs. exact Hcout.
Defined.

(** ** Each caller's entries keep their order *)

Lemma Interleave_sublist {A} (ls : list (list A)) (l : list A) :
  Interleave ls l -> Forall (fun x => sublist x l) ls.
Proof.
  induction 1 as [n | before after done x sofar _ IH].
  - apply Forall_forall. intros x Hx. apply elem_of_replicate in Hx as [-> _]. constructor.
  - apply Forall_app in IH as [Hb Ha]. apply Forall_cons in Ha as [Hd Ha].
    apply Forall_app. split; [| constructor].
    + eapply Forall_impl; [exact Hb |]. intros y Hy. now apply sublist_inserts_r.
    + apply sublist_app; [exact Hd | reflexivity].
    + eapply Forall_impl; [exact Ha |]. intros y Hy. now apply sublist_inserts_r.
Qed.

Lemma Interleave_Permutation {A} (ls : list (list A)) (l : list A) :
  Interleave ls l -> Permutation l (concat ls).
Proof.
  induction 1 as [n | before after done x sofar _ IH].
  - induction n as [|n IHn]; [reflexivity | exact IHn].
  - rewrite concat_app in *. simpl in *. rewrite IH.
    rewrite <- !(assoc_L (++)). do 2 apply Permutation_app_head.
    simpl. symmetry. apply Permutation_cons_append.
Qed.

Lemma Interleave_single {A} (ls : list (list A)) (l : list A) :
  Interleave ls l -> forall x, ls = [x] -> l = x.
Proof.
  induction 1 as [n | before after done x sofar _ IH]; intros y Hy.
  - destruct n as [|[|n]]; simpl in Hy; try discriminate Hy. now injection Hy as <-.
  - destruct before as [|b before].
    + simpl in Hy. injection Hy as <- ->. now rewrite (IH done eq_refl).
    + injection Hy as _ Hy. destruct before; discriminate Hy.
Qed.

Lemma holders_spawn (progs : list (list Action)) : holders (spawn progs) = [].
Proof. induction progs as [|p progs IH]; [reflexivity | exact IH]. Qed.

(** One step, seen from the calls carried out: either no call was
    completed and the state still stems from the same ones, or the caller
    inside the block has just completed its call, which comes last. *)
Lemma step_serial (st0 st st' virt : St) (th th' : Thread) (before after : list Thread)
  (order : list (LogLevel * string)) :
  minimumLevel st.1 = minimumLevel st0.1 ->
  passes (minimumLevel st0.1) th ->
  thread_step st th = Some (st', th') ->
  log_all order st0 = Some (tt, virt) ->
  holds (before ++ th :: after) st virt ->
  (pending (minimumLevel st0.1) th' = pending (minimumLevel st0.1) th /\
   holds (before ++ th' :: after) st' virt) \/
  (exists c, pending (minimumLevel st0.1) th = c :: pending (minimumLevel st0.1) th' /\
             log_all (order ++ [c]) st0 = Some (tt, st') /\
             holds (before ++ th' :: after) st' st').
Proof.
  intros Hmin Hpt Hth Hrun Hholds.
  destruct (in_cs (pc th)) eqn:Hin.
  - destruct (holds_taken_inv _ _ _ _ _ Hholds Hin)
      as (Hb & Ha & Hm & level & message & Hcall & Hlog).
    destruct (thread_step_inside _ _ _ _ Hth Hin)
      as [Hc | (Hin' & Hcall' & Hprog & Hm' & Hrest & _)].
    + destruct (thread_step_release _ _ _ _ Hth Hin Hc) as (Hst' & Hunl & Hpc' & Hprog).
      right. exists (level, message). split; [| split].
      * unfold pending. rewrite Hpc', Hprog, Hcall. reflexivity.
      * rewrite log_all_app, Hrun. simpl. unfold bind. rewrite Hlog, <- Hst'. reflexivity.
      * unfold holds. rewrite holders_mid_out by (rewrite Hpc'; reflexivity).
        rewrite Hb, Ha. simpl. split; [| reflexivity]. rewrite Hunl. reflexivity.
    + left. split.
      * unfold pending. now rewrite Hcall', Hprog.
      * unfold holds. rewrite holders_mid_in by exact Hin'. rewrite Hb, Ha. simpl.
        split; [congruence |]. exists level, message.
        split; [congruence |]. now rewrite Hrest.
  - left. destruct (pc th) eqn:Hpc; try discriminate Hin.
    + destruct (thread_step_idle _ _ _ _ Hth Hpc) as (Hst & Hin' & Hpend & _).
      rewrite Hmin in Hpend. subst st'. split; [exact Hpend |].
      unfold holds in *. rewrite holders_mid_out by exact Hin'.
      rewrite holders_mid_out in Hholds by (rewrite Hpc; reflexivity). exact Hholds.
    + destruct (thread_step_guard _ _ _ _ _ _ Hth Hpc)
        as (Hm & Hlock & Hm' & _ & Hpc' & Hprog).
      destruct (holds_free_inv _ _ _ Hholds Hm) as [Hnone ->].
      rewrite holders_mid_out in Hnone by (rewrite Hpc; reflexivity).
      apply app_eq_nil in Hnone as [Hb Ha].
      split.
      * unfold pending. now rewrite Hpc', Hprog, Hpc.
      * unfold holds. rewrite holders_mid_in by (rewrite Hpc'; reflexivity).
        rewrite Hb, Ha. simpl. split; [exact Hm' |].
        exists level, message. rewrite Hpc'. split; [reflexivity |].
        rewrite log_unfold, Hmin. unfold passes in Hpt. rewrite Hpc in Hpt.
        apply Forall_cons in Hpt as [Hlt _]. simpl in Hlt. rewrite Hlt, Hlock.
        reflexivity.
Qed.

Lemma Fifo_init (st0 : St) (progs : list (list Action)) :
  logMutex st0.1 = false ->
  Fifo st0 (map (accepted (minimumLevel st0.1)) progs) (mk_Sys st0 (spawn progs)).
Proof.
  intros Hm. exists [], st0, (replicate (length progs) []). simpl.
  split; [reflexivity |]. split; [| split; [constructor |]].
  - unfold holds. rewrite holders_spawn. auto.
  - induction progs as [|p progs IH]; simpl; constructor; [reflexivity | exact IH].
Qed.

Lemma Fifo_step (st0 : St) (all : list (LogLevel * string))
  (targets : list (list (LogLevel * string))) (s s' : Sys) :
  Inv st0 all s -> Fifo st0 targets s -> sys_step s s' -> Fifo st0 targets s'.
Proof.
  intros [_ Hmin Hpass _] (order & virt & dones & Hrun & Hholds & Hint & Hall) Hstep.
  destruct Hstep as [st st' th th' before after Hth]. simpl in *.
  apply Forall_app in Hpass as [_ Hpa]. apply Forall_cons in Hpa as [Hpt _].
  apply Forall3_app_inv_m in Hall as (d1 & d2 & t1 & t2 & -> & -> & Hall1 & Hall2).
  apply Forall3_cons_inv_m in Hall2 as (d & da & t & ta & -> & -> & Hd & Hall2).
  destruct (step_serial st0 st st' virt th th' before after order Hmin Hpt Hth Hrun Hholds)
    as [[Hpend Hholds'] | (c & Hpend & Hrun' & Hholds')].
  - exists order, virt, (d1 ++ d :: da).
    split; [exact Hrun |]. split; [exact Hholds' |]. split; [exact Hint |].
    apply Forall3_app; [exact Hall1 |]. constructor; [| exact Hall2]. now rewrite Hpend.
  - exists (order ++ [c]), st', (d1 ++ (d ++ [c]) :: da).
    split; [exact Hrun' |]. split; [exact Hholds' |].
    split; [now constructor |].
    apply Forall3_app; [exact Hall1 |]. constructor; [| exact Hall2].
    rewrite <- Hd, Hpend, <- (assoc_L (++)). reflexivity.
Qed.

Lemma Fifo_steps (st0 : St) (all : list (LogLevel * string))
  (targets : list (list (LogLevel * string))) (s s' : Sys) :
  Inv st0 all s -> Fifo st0 targets s -> sys_steps s s' -> Fifo st0 targets s'.
Proof.
  intros HI HF Hsteps. induction Hsteps as [|s1 s2 s3 Hsteps IH Hstep]; [exact HF |].
  eapply Fifo_step; [exact (Inv_steps _ _ _ _ HI Hsteps) | apply IH; assumption | exact Hstep].
Qed.

Lemma finished_targets (minLevel : LogLevel) (dones targets : list (list (LogLevel * string)))
  (ths : list Thread) :
  Forall3 (fun d th t => d ++ pending minLevel th = t) dones ths targets ->
  forallb finished ths = true -> dones = targets.
Proof.
  induction 1 as [|d th t ds ths ts Hd _ IH]; [reflexivity |].
  simpl. intros Hdone. apply andb_prop in Hdone as [Hth Hths].
  rewrite (IH Hths). f_equal. rewrite <- Hd.
  unfold finished in Hth. unfold pending.
  destruct (pc th); try discriminate Hth. destruct (prog th); [| discriminate Hth].
  simpl. symmetry. apply app_nil_r.
Qed.

Lemma Fifo_done (st0 : St) (targets : list (list (LogLevel * string))) (s : Sys) :
  Fifo st0 targets s -> all_done s = true ->
  exists order, Interleave targets order /\ log_all order st0 = Some (tt, shared s).
Proof.
  intros (order & virt & dones & Hrun & Hholds & Hint & Hall) Hdone.
  destruct (finished_pending (minimumLevel st0.1) _ Hdone) as [_ Hnone].
  unfold holds in Hholds. rewrite Hnone in Hholds. destruct Hholds as [_ ->].
  exists order. split; [| exact Hrun].
  now rewrite <- (finished_targets _ _ _ _ Hall Hdone).
Qed.

(** A run to completion is the calls of the workers shuffled together
    and made by one caller. *)
Lemma run_interleaves (lg : Logger) (w : World) (progs : list (list Action)) (s : Sys) :
  logMutex lg = false ->
  sys_steps (mk_Sys (lg, w) (spawn progs)) s ->
  all_done s = true ->
  exists (order : list (LogLevel * string)) (w' : World),
    Interleave (map (accepted (minimumLevel lg)) progs) order /\
    shared s = (lg, w') /\
    log_all order (lg, w) = Some (tt, (lg, w')) /\
    extends lg w (entries_of (minimumLevel lg) (time_src w) (reads w) order) w'.
Proof.
  intros Hm Hreach Hdone.
  pose proof (Inv_init (lg, w) progs Hm) as HI.
  pose proof (Fifo_init (lg, w) progs Hm) as HF.
  destruct (Fifo_done _ _ _ (Fifo_steps _ _ _ _ _ HI HF Hreach) Hdone)
    as (order & Hint & Hrun).
  destruct (log_all_effect order lg w Hm) as (w' & Hrun' & Hext).
  exists order, w'. split; [exact Hint |]. split; [congruence |]. auto.
Qed.

(** X6.  When the workers are all done, the entries in the sinks are those
    of the accepted calls of the workers shuffled together: a worker's
    entries may have those of others in between, but they stand in the
    order in which that worker made its calls, and console and file show
    the same order. *)
Theorem X6_program_order_kept :
  forall (lg : Logger) (w : World) (progs : list (list Action)) (s : Sys),
    logMutex lg = false ->
    sys_steps (mk_Sys (lg, w) (spawn progs)) s ->
    all_done s = true ->
    exists (order : list (LogLevel * string)) (w' : World),
      shared s = (lg, w') /\
      Interleave (map (accepted (minimumLevel lg)) progs) order /\
      Forall (fun p => sublist (accepted (minimumLevel lg) p) order) progs /\
      let es := entries_of (minimumLevel lg) (time_src w) (reads w) order in
      cout w' = cout w +:+ lines es /\
      (forall p, logfile lg = Some p ->
         file_content p (files w') = file_content p (files w) +:+ lines es).
Proof.
  intros lg w progs s Hm Hreach Hdone.
  destruct (run_interleaves lg w progs s Hm Hreach Hdone)
    as (order & w' & Hint & Hs & _ & Hext).
  exists order, w'. split; [exact Hs |]. split; [exact Hint |].
  split.
  { apply Interleave_sublist in Hint. apply Forall_map in Hint. exact Hint. }
  split; [exact (ext_cout _ _ _ _ Hext) | exact (ext_file _ _ _ _ Hext)].
Qed.

Lemma X6_program_order_kept_witness :
  exists order : list (LogLevel * string),
    sublist [(INFO, "a1"); (DEBUG, "a2")] order /\
    sublist [(ERROR, "b1"); (WARNING, "b2")] order.
Proof.
  destruct (X6_program_order_kept sample_logger sample_world sample_progs
              (run_sched sample_sched
                 (mk_Sys (sample_logger, sample_world) (spawn sample_progs)))
              eq_refl (run_sched_steps _ _) eq_refl)
    as (order & w' & _ & _ & Hsub & _).
  exists order.
  apply Forall_cons in Hsub as [H1 Hsub]. apply Forall_cons in Hsub as [H2 _].
  split; [exact H1 | exact H2].
Defined.

Lemma log_all_calls_of (acts : list Action) (st : St) :
  log_all (accepted (minimumLevel st.1) acts) st = log_all (calls_of acts) st.
Proof.
  revert st. induction acts as [|[level message|ms] rest IH]; intros st;
    [reflexivity | | apply IH].
  simpl. destruct (level_lt level (minimumLevel st.1)) eqn:Hlt.
  - simpl. unfold bind. rewrite log_filtered by exact Hlt. apply IH.
  - simpl. unfold bind.
    destruct (log level message st) as [[[] st1]|] eqn:Hlog; [| reflexivity].
    rewrite <- IH. apply log_logger in Hlog. now rewrite Hlog.
Qed.

(** X7.  A worker that has the logger to itself: stepping through its
    program statement by statement, sleeps included, ends in exactly the
    state that making its calls one after the other through [log] gives. *)
Theorem X7_lone_worker :
  forall (lg : Logger) (w : World) (acts : list Action) (s : Sys),
    logMutex lg = false ->
    sys_steps (mk_Sys (lg, w) (spawn [acts])) s ->
    all_done s = true ->
    log_all (calls_of acts) (lg, w) = Some (tt, shared s).
Proof.
  intros lg w acts s Hm Hreach Hdone.
  destruct (run_interleaves lg w [acts] s Hm Hreach Hdone)
    as (order & w' & Hint & Hs & Hrun & _).
  rewrite (Interleave_single _ _ Hint _ eq_refl) in Hrun.
  rewrite Hs, <- (log_all_calls_of acts (lg, w)). exact Hrun.
Qed.

Lemma X7_lone_worker_witness :
  log_all [(ERROR, "b1"); (WARNING, "b2")] (sample_logger, sample_world)
  = Some (tt, shared (run_sched (repeat 0%nat 19)
                        (mk_Sys (sample_logger, sample_world)
                           (spawn [[Call ERROR "b1"; SleepFor 100; Call WARNING "b2"]])))).
Proof.
  exact (X7_lone_worker sample_logger sample_world
           [Call ERROR "b1"; SleepFor 100; Call WARNING "b2"]
           (run_sched (repeat 0%nat 19)
              (mk_Sys (sample_logger, sample_world)
                 (spawn [[Call ERROR "b1"; SleepFor 100; Call WARNING "b2"]])))
           eq_refl (run_sched_steps _ _) eq_refl).
Defined.

(** ** Timestamps sort as text *)

Lemma compare_cons (a b : ascii) (s1 s2 : string) :
  String.compare (String a s1) (String b s2)
  = lex (Stdlib.Strings.Ascii.compare a b) (String.compare s1 s2).
Proof. simpl. destruct (Stdlib.Strings.Ascii.compare a b); reflexivity. Qed.

Lemma compare_same_head (c : ascii) (s1 s2 : string) :
  String.compare (String c s1) (String c s2) = String.compare s1 s2.
Proof.
  rewrite compare_cons. unfold Stdlib.Strings.Ascii.compare.
  now rewrite N.compare_refl.
Qed.

Lemma ascii_compare_digit (a b : Z) :
  Stdlib.Strings.Ascii.compare (digit a) (digit b) = (a mod 10 ?= b mod 10).
Proof.
  unfold digit.
  destruct (digit_cases a) as [Ha|[Ha|[Ha|[Ha|[Ha|[Ha|[Ha|[Ha|[Ha|Ha]]]]]]]]];
  destruct (digit_cases b) as [Hb|[Hb|[Hb|[Hb|[Hb|[Hb|[Hb|[Hb|[Hb|Hb]]]]]]]]];
    rewrite Ha, Hb; reflexivity.
Qed.

Lemma lex_assoc (a b c : comparison) : lex a (lex b c) = lex (lex a b) c.
Proof. destruct a; reflexivity. Qed.

Lemma lex_Eq_r (a : comparison) : lex a Eq = a.
Proof. destruct a; reflexivity. Qed.

(** Comparing two numbers is comparing their tens, then their units. *)
Lemma lex_tens (a b : Z) :
  lex (a / 10 ?= b / 10) (a mod 10 ?= b mod 10) = (a ?= b).
Proof.
  pose proof (Z.div_mod a 10 ltac:(lia)). pose proof (Z.div_mod b 10 ltac:(lia)).
  pose proof (Z.mod_pos_bound a 10 ltac:(lia)). pose proof (Z.mod_pos_bound b 10 ltac:(lia)).
  destruct (Z.compare_spec (a / 10) (b / 10));
    destruct (Z.compare_spec (a mod 10) (b mod 10));
    destruct (Z.compare_spec a b); simpl; try reflexivity; lia.
Qed.

Lemma compare_two (a b : Z) (r1 r2 : string) :
  0 <= a <= 99 -> 0 <= b <= 99 ->
  String.compare (two a +:+ r1) (two b +:+ r2) = lex (a ?= b) (String.compare r1 r2).
Proof.
  intros Ha Hb. unfold two. rewrite !app_cons_s, !app_nil_l_s, !compare_cons.
  rewrite !ascii_compare_digit, lex_assoc.
  rewrite (Z.mod_small (a / 10) 10), (Z.mod_small (b / 10) 10).
  - now rewrite lex_tens.
  - split; [apply Z.div_pos; lia | apply Z.div_lt_upper_bound; lia].
  - split; [apply Z.div_pos; lia | apply Z.div_lt_upper_bound; lia].
Qed.

Lemma compare_four (a b : Z) (r1 r2 : string) :
  0 <= a <= 9999 -> 0 <= b <= 9999 ->
  String.compare (four a +:+ r1) (four b +:+ r2) = lex (a ?= b) (String.compare r1 r2).
Proof.
  intros Ha Hb.
  assert (Hq : forall n, 0 <= n <= 9999 -> 0 <= n / 100 <= 99).
  { intros n Hn. split; [apply Z.div_pos; lia |].
    apply Z.lt_succ_r, Z.div_lt_upper_bound; lia. }
  assert (Hfour : forall n r, four n +:+ r = two (n / 100) +:+ two n +:+ r).
  { intros n r. unfold four, two. rewrite !app_cons_s, !app_nil_l_s.
    rewrite Z.div_div by lia. reflexivity. }
  rewrite !Hfour.
  rewrite (compare_two (a / 100) (b / 100)) by auto.
  unfold two at 1 2. rewrite !app_cons_s, !app_nil_l_s, !compare_cons.
  rewrite !ascii_compare_digit, !lex_assoc.
  assert (Hd : forall n, (n / 10) mod 10 = (n mod 100) / 10).
  { intros n. Z.to_euclidean_division_equations. lia. }
  assert (Hm : forall n, n mod 10 = (n mod 100) mod 10).
  { intros n. Z.to_euclidean_division_equations. lia. }
  rewrite !Hd, (Hm a), (Hm b).
  rewrite <- (lex_assoc (a / 100 ?= b / 100)), lex_tens.
  f_equal.
  pose proof (Z.div_mod a 100 ltac:(lia)). pose proof (Z.div_mod b 100 ltac:(lia)).
  pose proof (Z.mod_pos_bound a 100 ltac:(lia)). pose proof (Z.mod_pos_bound b 100 ltac:(lia)).
  destruct (Z.compare_spec (a / 100) (b / 100));
    destruct (Z.compare_spec (a mod 100) (b mod 100));
    destruct (Z.compare_spec a b); simpl; try reflexivity; lia.
Qed.

Lemma compare_shift (a b k : Z) : (a + k ?= b + k) = (a ?= b).
Proof.
  destruct (Z.compare_spec (a + k) (b + k)); destruct (Z.compare_spec a b);
    try reflexivity; lia.
Qed.

(** X9.  The text of a timestamp sorts like the time it stands for:
    comparing two stamps character by character gives the same answer as
    comparing year, month, day, hour, minute and second in that order.  In
    particular different seconds never get the same stamp. *)
Theorem X9_timestamps_sort :
  forall t1 t2 : tm,
    tm_ok t1 -> tm_ok t2 ->
    String.compare (put_time t1) (put_time t2) = tm_compare t1 t2 /\
    (put_time t1 = put_time t2 -> t1 = t2).
Proof.
  intros t1 t2 Hok1 Hok2. split.
  - rewrite !put_time_text by assumption.
    destruct Hok1 as (Hs1 & Hmi1 & Hh1 & Hd1 & Hmo1 & Hy1).
    destruct Hok2 as (Hs2 & Hmi2 & Hh2 & Hd2 & Hmo2 & Hy2).
    unfold timestamp_text, tm_compare.
    rewrite compare_four by lia. rewrite compare_shift.
    change ("-" +:+ ?x) with (String "-"%char x). rewrite compare_same_head.
    rewrite compare_two by lia. rewrite compare_shift.
    change ("-" +:+ ?x) with (String "-"%char x). rewrite compare_same_head.
    rewrite compare_two by lia.
    change (" " +:+ ?x) with (String " "%char x). rewrite compare_same_head.
    rewrite compare_two by lia.
    change (":" +:+ ?x) with (String ":"%char x). rewrite compare_same_head.
    rewrite compare_two by lia.
    change (":" +:+ ?x) with (String ":"%char x). rewrite compare_same_head.
    rewrite <- (app_nil_r_s (two (tm_sec t1))), <- (app_nil_r_s (two (tm_sec t2))).
    rewrite compare_two by lia. simpl String.compare. now rewrite lex_Eq_r.
  - intros Heq.
    pose proof (parse_timestamp_text t1 Hok1) as H1.
    pose proof (parse_timestamp_text t2 Hok2) as H2.
    rewrite <- !put_time_text in H1, H2 by assumption. congruence.
Qed.

Lemma X9_timestamps_sort_witness :
  String.compare (put_time (mk_tm 59 59 23 31 11 123)) (put_time (mk_tm 0 0 0 1 0 124)) = Lt.
Proof.
  assert (H1 : tm_ok (mk_tm 59 59 23 31 11 123)) by (vm_compute; repeat split; discriminate).
  assert (H2 : tm_ok (mk_tm 0 0 0 1 0 124)) by (vm_compute; repeat split; discriminate).
  exact (proj1 (X9_timestamps_sort _ _ H1 H2)).
Defined.

(** ** Stamps follow the order of writing *)

Lemma entries_of_lookup (minLevel : LogLevel) (src : nat -> tm) (k : nat)
  (calls : list (LogLevel * string)) (i : nat) (level : LogLevel) (message : string) :
  Forall (fun c => level_lt c.1 minLevel = false) calls ->
  calls !! i = Some (level, message) ->
  entries_of minLevel src k calls !! i
    = Some (build_entry (put_time (src (k + i)%nat)) level message).
Proof.
  intros H. revert k i. induction H as [|[l m] rest Hlt _ IH]; intros k i Hi;
    [discriminate Hi |].
  simpl in Hlt. cbn [entries_of]. rewrite Hlt. destruct i as [|i].
  - injection Hi as -> ->. simpl. now rewrite Nat.add_0_r.
  - simpl in Hi. simpl. rewrite (IH (S k) i Hi).
    replace (k + S i)%nat with (S k + i)%nat by lia. reflexivity.
Qed.

(** What a run to completion leaves behind, from the invariant. *)
Lemma run_serial (lg : Logger) (w : World) (progs : list (list Action)) (s : Sys) :
  logMutex lg = false ->
  sys_steps (mk_Sys (lg, w) (spawn progs)) s ->
  all_done s = true ->
  exists (order : list (LogLevel * string)) (w' : World),
    Permutation order (flat_map (accepted (minimumLevel lg)) progs) /\
    Forall (fun c => level_lt c.1 (minimumLevel lg) = false) order /\
    shared s = (lg, w') /\
    extends lg w (entries_of (minimumLevel lg) (time_src w) (reads w) order) w'.
Proof.
  intros Hm Hreach Hdone.
  pose proof (Inv_init (lg, w) progs Hm) as HI. simpl in HI.
  destruct (Inv_done _ _ _ (Inv_steps _ _ _ _ HI Hreach) Hdone) as (order & Hperm & Hrun).
  destruct (log_all_effect order lg w Hm) as (w' & Hrun' & Hext).
  exists order, w'. split; [exact Hperm |]. split; [| split; [congruence | exact Hext]].
  eapply Permutation_Forall; [symmetry; exact Hperm |].
  apply Forall_flat_map. apply Forall_forall. intros p _. apply accepted_passes.
Qed.

(** X8.  The clock is read inside the guarded block, so stamps are taken in
    the order in which entries are written: after a run to completion the
    entry at place [i] of each sink is the [i]-th accepted call to get the
    mutex and bears the [i]-th answer the clock gave during the run, and
    the clock was read exactly once per entry. *)
Theorem X8_stamps_in_writing_order :
  forall (lg : Logger) (w : World) (progs : list (list Action)) (s : Sys),
    logMutex lg = false ->
    sys_steps (mk_Sys (lg, w) (spawn progs)) s ->
    all_done s = true ->
    exists (order : list (LogLevel * string)) (w' : World),
      shared s = (lg, w') /\
      Permutation order (flat_map (accepted (minimumLevel lg)) progs) /\
      let es := entries_of (minimumLevel lg) (time_src w) (reads w) order in
      cout w' = cout w +:+ lines es /\
      (forall p, logfile lg = Some p ->
         file_content p (files w') = file_content p (files w) +:+ lines es) /\
      reads w' = (reads w + length order)%nat /\
      length es = length order /\
      forall i level message,
        order !! i = Some (level, message) ->
        es !! i = Some (build_entry (put_time (time_src w (reads w + i)%nat))
                                    level message).
Proof.
  intros lg w progs s Hm Hreach Hdone.
  destruct (run_serial lg w progs s Hm Hreach Hdone)
    as (order & w' & Hperm & Hacc & Hs & Hext).
  exists order, w'. split; [exact Hs |]. split; [exact Hperm |].
  split; [exact (ext_cout _ _ _ _ Hext) |].
  split; [exact (ext_file _ _ _ _ Hext) |].
  split; [rewrite (ext_reads _ _ _ _ Hext), entries_of_length by exact Hacc; reflexivity |].
  split; [now apply entries_of_length |].
  intros i level message Hi. now apply entries_of_lookup.
Qed.

Lemma X8_stamps_in_writing_order_witness :
  reads (shared (run_sched sample_sched
                   (mk_Sys (sample_logger, sample_world) (spawn sample_progs)))).2 = 4%nat.
Proof.
  destruct (X8_stamps_in_writing_order sample_logger sample_world sample_progs
              (run_sched sample_sched
                 (mk_Sys (sample_logger, sample_world) (spawn sample_progs)))
              eq_refl (run_sched_steps _ _) eq_refl)
    as (order & w' & Hs & Hperm & _ & _ & Hreads & _).
  rewrite Hs. simpl. rewrite Hreads.
  now rewrite (Permutation_length Hperm).
Defined.

(** ** Workers running [threadFunction] *)

Lemma threadFunction_accepted (minLevel : LogLevel) (threadid : Z) :
  accepted minLevel (threadFunction threadid) = worker_calls minLevel threadid /\
  length (worker_calls minLevel threadid) = worker_entries minLevel.
Proof. destruct minLevel; split; reflexivity. Qed.

(** X11.  Any number of workers running [threadFunction], whatever their
    ids, on a logger whose mutex is free.  Once all are done, the calls
    carried out are, worker by worker and in each worker's own order, its
    ten calls when the threshold is DEBUG, its five INFO calls when it is
    INFO, and none above, shuffled together; the sinks got one entry for
    each of these calls and no other, the clock was read that many times,
    and with a threshold above INFO the run leaves the world exactly as it
    found it. *)
Theorem X11_workers_by_threshold :
  forall (lg : Logger) (w : World) (ids : list Z) (s : Sys),
    logMutex lg = false ->
    sys_steps (mk_Sys (lg, w) (spawn (map threadFunction ids))) s ->
    all_done s = true ->
    exists (order : list (LogLevel * string)) (w' : World),
      shared s = (lg, w') /\
      Interleave (map (worker_calls (minimumLevel lg)) ids) order /\
      Forall (fun id => sublist (worker_calls (minimumLevel lg) id) order /\
                        length (worker_calls (minimumLevel lg) id)
                          = worker_entries (minimumLevel lg)) ids /\
      length order = (length ids * worker_entries (minimumLevel lg))%nat /\
      let es := entries_of (minimumLevel lg) (time_src w) (reads w) order in
      length es = length order /\
      (forall i level message,
         order !! i = Some (level, message) ->
         es !! i = Some (build_entry (put_time (time_src w (reads w + i)%nat))
                                     level message)) /\
      cout w' = cout w +:+ lines es /\
      (forall p, logfile lg = Some p ->
         file_content p (files w') = file_content p (files w) +:+ lines es) /\
      reads w' = (reads w + length ids * worker_entries (minimumLevel lg))%nat /\
      (rank INFO < rank (minimumLevel lg) -> w' = w).
Proof.
  intros lg w ids s Hm Hreach Hdone.
  destruct (run_interleaves lg w _ s Hm Hreach Hdone)
    as (order & w' & Hint & Hs & Hrun & Hext).
  rewrite map_map in Hint.
  assert (Hmap : map (fun id => accepted (minimumLevel lg) (threadFunction id)) ids
                 = map (worker_calls (minimumLevel lg)) ids).
  { apply map_ext. intros id. apply threadFunction_accepted. }
  rewrite Hmap in Hint.
  assert (Hacc : Forall (fun c => level_lt c.1 (minimumLevel lg) = false) order).
  { eapply Permutation_Forall; [symmetry; apply (Interleave_Permutation _ _ Hint) |].
    apply Forall_concat. apply Forall_map. apply Forall_forall. intros id _.
    rewrite <- (proj1 (threadFunction_accepted (minimumLevel lg) id)).
    apply accepted_passes. }
  assert (Hlen : length order = (length ids * worker_entries (minimumLevel lg))%nat).
  { rewrite (Permutation_length (Interleave_Permutation _ _ Hint)).
    rewrite <- flat_map_concat_map.
    apply flat_map_length_const. apply Forall_forall. intros id _.
    apply threadFunction_accepted. }
  exists order, w'. split; [exact Hs |]. split; [exact Hint |].
  split.
  { pose proof (Interleave_sublist _ _ Hint) as Hsub. apply Forall_map in Hsub.
    eapply Forall_impl; [exact Hsub |]. intros id Hid. split; [exact Hid |].
    apply threadFunction_accepted. }
  split; [exact Hlen |].
  split; [now apply entries_of_length |].
  split; [intros i level message Hi; now apply entries_of_lookup |].
  split; [exact (ext_cout _ _ _ _ Hext) |].
  split; [exact (ext_file _ _ _ _ Hext) |].
  split.
  { rewrite (ext_reads _ _ _ _ Hext), entries_of_length by exact Hacc.
    now rewrite Hlen. }
  intros Hhigh.
  assert (order = []) as Hnil.
  { apply length_zero_iff_nil. rewrite Hlen.
    destruct (minimumLevel lg); simpl in Hhigh; try lia; simpl; lia. }
  rewrite Hnil in Hrun. simpl in Hrun. unfold ret in Hrun. congruence.
Qed.

Lemma X11_workers_by_threshold_witness :
  exists order : list (LogLevel * string),
    Interleave [worker_calls INFO 7; worker_calls INFO 8] order /\
    length order = 10%nat /\
    cout (shared (run_sched (repeat 0%nat 60 ++ repeat 1%nat 60)
                    (mk_Sys (mk_Logger None INFO false, sample_world)
                       (spawn (map threadFunction [7; 8]))))).2
      = lines (entries_of INFO sample_clock 0 order).
Proof.
  destruct (X11_workers_by_threshold (mk_Logger None INFO false) sample_world [7; 8]
              (run_sched (repeat 0%nat 60 ++ repeat 1%nat 60)
                 (mk_Sys (mk_Logger None INFO false, sample_world)
                    (spawn (map threadFunction [7; 8]))))
              eq_refl (run_sched_steps _ _) eq_refl)
    as (order & w' & Hs & Hint & _ & Hlen & _ & _ & Hcout & _).
  exists order. split; [exact Hint |]. split; [exact Hlen |]. rewrite Hs. exact Hcout.
Defined.

(** ** Numbers in messages *)

Arguments digit : simpl never.
Arguments to_string : simpl never.
Arguments digit_val : simpl never.
Arguments is_digit : simpl never.
Arguments is_char : simpl never.

Lemma read_digits_app (a b : string) (acc : Z) :
  read_digits (a +:+ b) acc = read_digits b (read_digits a acc).
Proof.
  revert acc. induction a as [|c a IH]; intros acc; [reflexivity |].
  rewrite app_cons_s. simpl. apply IH.
Qed.

Lemma all_digits_app (a b : string) :
  all_digits (a +:+ b) = all_digits a && all_digits b.
Proof.
  induction a as [|c a IH]; [reflexivity |].
  rewrite app_cons_s. simpl. rewrite IH. now rewrite andb_assoc.
Qed.

(** What [dec_digits] puts in front of its accumulator: digits that read
    back as the number. *)
Lemma dec_digits_spec (fuel : nat) (n : Z) (tail : string) :
  0 <= n < 10 ^ Z.of_nat fuel ->
  exists ds, dec_digits fuel n tail = ds +:+ tail /\
             read_digits ds 0 = n /\ all_digits ds = true /\
             (fuel <> O -> ds <> "").
Proof.
  revert n tail. induction fuel as [|fuel IH]; intros n tail Hn.
  - change (10 ^ Z.of_nat 0) with 1 in Hn. exists "".
    split; [reflexivity |]. split; [simpl; lia |]. split; [reflexivity | congruence].
  - rewrite Nat2Z.inj_succ, Z.pow_succ_r in Hn by lia.
    set (bound := 10 ^ Z.of_nat fuel) in *.
    pose proof (Z.div_mod n 10 ltac:(lia)) as Hdm.
    cbn [dec_digits]. destruct (n / 10 =? 0) eqn:Hq.
    + exists (String (digit n) ""). apply Z.eqb_eq in Hq.
      split; [reflexivity |]. split; [| split; [| discriminate]].
      * cbn [read_digits]. rewrite digit_val_digit. lia.
      * cbn [all_digits]. now rewrite is_digit_digit.
    + assert (Hn' : 0 <= n / 10 < bound).
      { split; [apply Z.div_pos; lia | apply Z.div_lt_upper_bound; lia]. }
      destruct (IH (n / 10) (String (digit n) tail) Hn') as (ds & Heq & Hread & Hall & _).
      exists (ds +:+ String (digit n) ""). rewrite Heq.
      split; [now rewrite app_assoc_s |]. split; [| split].
      * rewrite read_digits_app, Hread. cbn [read_digits]. rewrite digit_val_digit. lia.
      * rewrite all_digits_app, Hall. cbn [all_digits]. now rewrite is_digit_digit.
      * intros _ Hnil. apply (f_equal String.length) in Hnil.
        rewrite app_length_s in Hnil. simpl in Hnil. lia.
Qed.

Lemma is_digit_not_char (c : ascii) (n : nat) :
  is_digit c = true -> (n < 48)%nat -> is_char c n = false.
Proof.
  unfold is_digit, is_char. intros H Hn. apply andb_prop in H as [H _].
  apply Nat.leb_le in H. apply Nat.eqb_neq. lia.
Qed.

Lemma all_digits_has_char (s : string) (n : nat) :
  all_digits s = true -> (n < 48)%nat -> has_char n s = false.
Proof.
  intros H Hn. induction s as [|c s IH]; [reflexivity |].
  simpl in *. apply andb_prop in H as [Hc Hs].
  now rewrite (is_digit_not_char c n Hc Hn), (IH Hs).
Qed.

(** [to_string] writes an optional minus sign and digits, and reads back as
    the number it was given. *)
Lemma to_string_spec (n : Z) :
  is_int n ->
  of_string (to_string n) = n /\ has_char 32 (to_string n) = false.
Proof.
  unfold is_int, to_string. intros Hn. destruct (n <? 0) eqn:Hneg.
  - apply Z.ltb_lt in Hneg.
    destruct (dec_digits_spec 10 (- n) "" ltac:(change (10 ^ Z.of_nat 10) with 10000000000; lia)) as (ds & -> & Hread & Hall & _).
    rewrite app_nil_r_s. change ("-" +:+ ds) with (String "-"%char ds).
    split.
    + simpl. rewrite Hread. lia.
    + simpl. now apply all_digits_has_char; [| lia].
  - apply Z.ltb_ge in Hneg.
    destruct (dec_digits_spec 10 n "" ltac:(change (10 ^ Z.of_nat 10) with 10000000000; lia)) as (ds & -> & Hread & Hall & Hne).
    rewrite app_nil_r_s. split.
    + destruct ds as [|c ds]; [now destruct Hne |].
      simpl in Hall. apply andb_prop in Hall as [Hc _].
      unfold of_string. rewrite (is_digit_not_char c 45 Hc) by lia. exact Hread.
    + now apply all_digits_has_char; [| lia].
Qed.

Lemma to_string_inj (a b : Z) : is_int a -> is_int b -> to_string a = to_string b -> a = b.
Proof.
  intros Ha Hb Heq. rewrite <- (proj1 (to_string_spec a Ha)), Heq.
  exact (proj1 (to_string_spec b Hb)).
Qed.

(** Two texts that agree once a word without blanks and a blank are cut off
    their front end with the same word. *)
Lemma split_at_blank (x1 x2 r1 r2 : string) :
  has_char 32 x1 = false -> has_char 32 x2 = false ->
  x1 +:+ String " "%char r1 = x2 +:+ String " "%char r2 ->
  x1 = x2 /\ r1 = r2.
Proof.
  revert x2. induction x1 as [|c x1 IH]; intros [|d x2] H1 H2 Heq.
  - injection Heq as <-. auto.
  - rewrite app_cons_s, app_nil_l_s in Heq. injection Heq as <- _.
    simpl in H2. discriminate H2.
  - rewrite app_cons_s, app_nil_l_s in Heq. injection Heq as -> _.
    simpl in H1. discriminate H1.
  - rewrite !app_cons_s in Heq. injection Heq as -> Heq.
    simpl in H1, H2. apply orb_false_elim in H1 as [_ H1].
    apply orb_false_elim in H2 as [_ H2].
    destruct (IH x2 H1 H2 Heq) as [-> ->]. auto.
Qed.

(** X10.  The numbers that [threadFunction] writes into its messages can be
    read back: [to_string] followed by reading the decimal text gives every
    [int] back, so the INFO message of a turn of the loop tells which worker
    and which turn it comes from, and the DEBUG message tells the worker. *)
Theorem X10_worker_messages_tell :
  forall (a b i j : Z),
    is_int a -> is_int b -> is_int i -> is_int j ->
    of_string (to_string a) = a /\
    (threadFunction_body a i !! 0%nat = threadFunction_body b j !! 0%nat ->
     a = b /\ i = j) /\
    (threadFunction_body a i !! 1%nat = threadFunction_body b j !! 1%nat -> a = b).
Proof.
  intros a b i j Ha Hb Hi Hj.
  split; [exact (proj1 (to_string_spec a Ha)) |]. split.
  - simpl. intros Heq. injection Heq as Heq.
    rewrite !app_nil_l_s in Heq.
    change (" - Message " +:+ ?x) with (String " "%char ("- Message " +:+ x)) in Heq.
    apply split_at_blank in Heq as [Hab Hij];
      [| exact (proj2 (to_string_spec a Ha)) | exact (proj2 (to_string_spec b Hb))].
    apply (inj (String.app "- Message ")) in Hij.
    split; now apply to_string_inj.
  - simpl. intros Heq. injection Heq as Heq.
    rewrite !app_nil_l_s in Heq. now apply to_string_inj.
Qed.

Lemma X10_worker_messages_tell_witness :
  of_string (to_string (-2147483648)) = -2147483648.
Proof.
  assert (H : is_int (-2147483648)) by (unfold is_int; lia).
  exact (proj1 (X10_worker_messages_tell (-2147483648) 0 0 0 H
                  ltac:(unfold is_int; lia) ltac:(unfold is_int; lia)
                  ltac:(unfold is_int; lia))).
Defined.

(** ** Reading a log back *)

Lemma has_char_app (n : nat) (a b : string) :
  has_char n (a +:+ b) = has_char n a || has_char n b.
Proof.
  induction a as [|c a IH]; [reflexivity |].
  rewrite app_cons_s. cbn [has_char]. rewrite IH. apply orb_assoc.
Qed.

Lemma digit_is_not (x : Z) (n : nat) :
  (n < 48 \/ 57 < n)%nat -> is_char (digit x) n = false.
Proof.
  intros Hn. pose proof (is_digit_digit x) as H. unfold is_digit, is_char in *.
  apply andb_prop in H as [H1 H2]. apply Nat.leb_le in H1, H2.
  apply Nat.eqb_neq. lia.
Qed.

Lemma take_until_app (n : nat) (a rest : string) (c : ascii) :
  has_char n a = false -> is_char c n = true ->
  take_until n (a +:+ String c rest) = Some (a, rest).
Proof.
  intros Ha Hc. induction a as [|x a IH].
  - rewrite app_nil_l_s. cbn [take_until]. now rewrite Hc.
  - rewrite app_cons_s. cbn [take_until has_char] in *.
    apply orb_false_elim in Ha as [Hx Ha]. now rewrite Hx, (IH Ha).
Qed.

Lemma timestamp_text_no_bracket (t : tm) : has_char 93 (timestamp_text t) = false.
Proof.
  unfold timestamp_text, four, two. rewrite !app_cons_s, !app_nil_l_s.
  cbn [has_char]. rewrite !digit_is_not by lia. reflexivity.
Qed.

Lemma parse_build_entry (t : tm) (level : LogLevel) (message : string) :
  tm_ok t ->
  parse_entry (build_entry (put_time t) level message) = Some (t, level, message).
Proof.
  intros Hok. unfold build_entry. rewrite put_time_text by exact Hok.
  rewrite !app_cons_s, !app_nil_l_s.
  cbn [parse_entry]. change (is_char "[" 91) with true. cbv iota.
  rewrite take_until_app by (try apply timestamp_text_no_bracket; reflexivity).
  change (is_char "[" 91) with true. cbv iota.
  rewrite parse_timestamp_text by exact Hok.
  rewrite take_until_app by (destruct level; reflexivity).
  destruct level; reflexivity.
Qed.

(** X12.  An entry can be read back: cutting it at the brackets gives the
    broken-down time the clock answered, the severity of the call and the
    message, whatever the message contains.  So different severities never
    give the same tag. *)
Theorem X12_entry_reads_back :
  forall (t : tm) (level : LogLevel) (message : string),
    tm_ok t ->
    parse_entry (build_entry (put_time t) level message) = Some (t, level, message) /\
    level_of_tag (levelToString level) = Some level /\
    (forall level', levelToString level = levelToString level' -> level = level').
Proof.
  intros t level message Hok.
  split; [now apply parse_build_entry |].
  split; [destruct level; reflexivity |].
  intros level' Heq. destruct level, level'; try reflexivity; discriminate Heq.
Qed.

Lemma X12_entry_reads_back_witness :
  parse_entry "[2024-02-03 09:05:07][WARNING]disk [sda] at 91%"
  = Some (mk_tm 7 5 9 3 1 124, WARNING, "disk [sda] at 91%").
Proof.
  assert (H : tm_ok (mk_tm 7 5 9 3 1 124)) by (vm_compute; repeat split; discriminate).
  exact (proj1 (X12_entry_reads_back (mk_tm 7 5 9 3 1 124) WARNING "disk [sda] at 91%" H)).
Defined.

Lemma split_lines_entry (e rest cur : string) :
  newlines e = 0%nat ->
  split_lines (e +:+ endl +:+ rest) cur = (cur +:+ e) :: split_lines rest "".
Proof.
  revert cur. induction e as [|c e IH]; intros cur He.
  - rewrite app_nil_l_s, app_nil_r_s. reflexivity.
  - rewrite app_cons_s. cbn [split_lines newlines] in *. unfold is_char.
    destruct (nat_of_ascii c =? 10)%nat; [discriminate He |].
    rewrite (IH _ He), app_assoc_s. reflexivity.
Qed.

Lemma split_lines_lines (es : list string) :
  Forall (fun e => newlines e = 0%nat) es -> split_lines (lines es) "" = es.
Proof.
  induction 1 as [|e es He _ IH]; [reflexivity |].
  cbn [lines fold_right]. fold (lines es). now rewrite (split_lines_entry e _ "" He), IH.
Qed.

Lemma entries_of_newlines (minLevel : LogLevel) (src : nat -> tm) (k : nat)
  (calls : list (LogLevel * string)) :
  Forall (fun c => newlines c.2 = 0%nat) calls ->
  Forall (fun e => newlines e = 0%nat) (entries_of minLevel src k calls).
Proof.
  intros H. revert k. induction H as [|[level message] rest Hc _ IH]; intros k;
    [constructor |].
  cbn [entries_of]. destruct (level_lt level minLevel); [apply IH |].
  constructor; [| apply IH]. now rewrite newlines_build_entry.
Qed.

Lemma entries_of_parse (minLevel : LogLevel) (src : nat -> tm) (k : nat)
  (calls : list (LogLevel * string)) :
  (forall i, tm_ok (src i)) ->
  Forall (fun c => level_lt c.1 minLevel = false) calls ->
  Forall2 (fun e c => exists t, parse_entry e = Some (t, c.1, c.2))
          (entries_of minLevel src k calls) calls.
Proof.
  intros Hok H. revert k. induction H as [|[level message] rest Hlt _ IH]; intros k;
    [constructor |].
  cbn [entries_of]. simpl in Hlt. rewrite Hlt. constructor; [| apply IH].
  exists (src k). now apply parse_build_entry.
Qed.

(** X13.  A log written by workers side by side reads back.  When the
    clock gives proper times and no message contains a line terminator,
    cutting what a run to completion added to a sink at the line
    terminators gives one line per accepted call, and each line reads back
    as an entry with the severity and the message of its call; console and
    file got the same text. *)
Theorem X13_log_reads_back :
  forall (lg : Logger) (w : World) (progs : list (list Action)) (s : Sys),
    logMutex lg = false ->
    (forall i, tm_ok (time_src w i)) ->
    Forall (fun c => newlines c.2 = 0%nat) (flat_map (accepted (minimumLevel lg)) progs) ->
    sys_steps (mk_Sys (lg, w) (spawn progs)) s ->
    all_done s = true ->
    exists (order : list (LogLevel * string)) (w' : World) (text : string),
      shared s = (lg, w') /\
      Permutation order (flat_map (accepted (minimumLevel lg)) progs) /\
      cout w' = cout w +:+ text /\
      (forall p, logfile lg = Some p ->
         file_content p (files w') = file_content p (files w) +:+ text) /\
      length (split_lines text "") = length order /\
      Forall2 (fun line c => exists t, parse_entry line = Some (t, c.1, c.2))
              (split_lines text "") order.
Proof.
  intros lg w progs s Hm Hok Hnl Hreach Hdone.
  destruct (run_serial lg w progs s Hm Hreach Hdone)
    as (order & w' & Hperm & Hacc & Hs & Hext).
  exists order, w', (lines (entries_of (minimumLevel lg) (time_src w) (reads w) order)).
  split; [exact Hs |]. split; [exact Hperm |].
  split; [exact (ext_cout _ _ _ _ Hext) |].
  split; [exact (ext_file _ _ _ _ Hext) |].
  rewrite split_lines_lines.
  - split; [now apply entries_of_length | now apply entries_of_parse].
  - apply entries_of_newlines.
    eapply Permutation_Forall; [symmetry; exact Hperm | exact Hnl].
Qed.

Lemma X13_log_reads_back_witness :
  exists (order : list (LogLevel * string)) (text : string),
    cout (shared (run_sched sample_sched
                    (mk_Sys (sample_logger, sample_world) (spawn sample_progs)))).2
      = text /\
    length (split_lines text "") = length order /\
    Permutation order [(INFO, "a1"); (DEBUG, "a2"); (ERROR, "b1"); (WARNING, "b2")].
Proof.
  assert (Hok : forall i, tm_ok (time_src sample_world i)).
  { intros i. unfold sample_world, sample_clock, tm_ok. cbn [time_src tm_sec tm_min
      tm_hour tm_mday tm_mon tm_year].
    pose proof (Z.mod_pos_bound (Z.of_nat i) 60 ltac:(lia)). lia. }
  assert (Hnl : Forall (fun c => newlines c.2 = 0%nat)
                  (flat_map (accepted (minimumLevel sample_logger)) sample_progs))
    by (repeat constructor).
  destruct (X13_log_reads_back sample_logger sample_world sample_progs
              (run_sched sample_sched
                 (mk_Sys (sample_logger, sample_world) (spawn sample_progs)))
              eq_refl Hok Hnl (run_sched_steps _ _) eq_refl)
    as (order & w' & text & Hs & Hperm & Hcout & _ & Hlen & _).
  exists order, text. rewrite Hs. split; [exact Hcout |]. split; [exact Hlen | exact Hperm].
Defined.

(** ** One run of the driver after another *)



